(** * storage.blob.s3: the S3 blob store of maddy

    A shallow embedding of [internal/storage/blob/s3/s3.go] and the
    properties of its streaming write protocol, of [Open] and of [Delete].

    The package talks to three things it does not define: the minio client
    ([PutObject], [GetObject], [RemoveObject]), Go's [io.Pipe] and a buffered
    channel.  The client is a parameter of the development (class [Client]);
    the pipe and the channel are modelled after the Go runtime (modules
    [Pipe] and [Chan]).  A write handle and the goroutine started by [Create]
    form a two-thread system whose atomic steps are given by the executable
    function [step]; a schedule (a list of thread names) picks the
    interleaving. *)

From Stdlib.Strings Require Import Byte.
From stdpp Require Import base option list strings.

Set Warnings "-clear-no-such-hyp".

Open Scope string_scope.
Open Scope list_scope.
Open Scope nat_scope.

(** ** Go values used by the package *)

(** [minio.ErrorResponse]: the fields the package can observe. *)
Record ErrorResponse := mkErrorResponse {
  Code : string;
  Message : string;
  StatusCode : Z;
}.

(** The zero value [ErrorResponse{}]. *)
Definition ErrorResponse_zero : ErrorResponse :=
  {| Code := ""; Message := ""; StatusCode := 0 |}.

(** Go [error] values.  Sentinel errors are compared by identity in Go, so
    each is a constructor of its own; [nil] is [None] of [option error]. *)
Inductive error :=
| EOF                                   (* io.EOF *)
| ErrClosedPipe                         (* io.ErrClosedPipe *)
| ErrNoSuchBlob                         (* module.ErrNoSuchBlob *)
| Errorf (msg : string)                 (* fmt.Errorf(msg) *)
| ErrorfW (prefix : string) (err : error) (* fmt.Errorf(prefix ++ "%w", err) *)
| MinioErr (resp : ErrorResponse)       (* a minio.ErrorResponse returned as error *)
| OtherErr (msg : string).              (* any other error of the client (network, ...) *)

Global Instance ErrorResponse_eq_dec : EqDecision ErrorResponse.
Proof. solve_decision. Defined.

Global Instance error_eq_dec : EqDecision error.
Proof. solve_decision. Defined.

(** [err.Error()].  The text of [module.ErrNoSuchBlob] is declared by the
    framework, outside this package, and is never inspected here. *)
Fixpoint Error (e : error) : option string :=
  match e with
  | EOF => Some "EOF"
  | ErrClosedPipe => Some "io: read/write on closed pipe"
  | ErrNoSuchBlob => None
  | Errorf msg => Some msg
  | ErrorfW prefix err => (fun m => prefix +:+ m) <$> Error err
  | MinioErr resp => Some (Message resp)
  | OtherErr msg => Some msg
  end.

(** [errors.Unwrap]. *)
Definition Unwrap (e : error) : option error :=
  match e with
  | ErrorfW _ err => Some err
  | _ => None
  end.

(** [minio.ToErrorResponse]: a type switch, the zero value for anything that
    is not an [ErrorResponse]. *)
Definition ToErrorResponse (err : error) : ErrorResponse :=
  match err with
  | MinioErr resp => resp
  | _ => ErrorResponse_zero
  end.

(** [http.StatusNotFound]. *)
Definition StatusNotFound : Z := 404.

Definition modName : string := "storage.blob.s3".

(** ** io.Pipe *)

Module Pipe.

(** The local variables of a [Write] call that is inside its loop:
    the rest of the slice, the count [n], and the flag [once]. *)
Record writer := mkWriter {
  wb : list byte;
  wn : nat;
  wonce : bool;
}.

(** One pipe object; [io.Pipe()] returns its two ends, which alias it.
    [done] is closed exactly when one of the two once-errors is set. *)
Record t := mk {
  wr : option writer;     (* the Write call in progress, if any *)
  werr : option error;    (* set by closing the write end *)
  rerr : option error;    (* set by closing the read end *)
}.

Definition new : t := {| wr := None; werr := None; rerr := None |}.

Definition done (p : t) : bool :=
  bool_decide (is_Some (werr p)) || bool_decide (is_Some (rerr p)).

(** [onceError.Store]: only the first error is kept. *)
Definition store (cur : option error) (err : error) : option error :=
  match cur with
  | Some e => Some e
  | None => Some err
  end.

Definition readCloseError (p : t) : error :=
  match rerr p, werr p with
  | None, Some e => e
  | _, _ => ErrClosedPipe
  end.

Definition writeCloseError (p : t) : error :=
  match werr p, rerr p with
  | None, Some e => e
  | _, _ => ErrClosedPipe
  end.

(** [pr.CloseWithError(err)]; [pr.Close()] is [closeRead None]. *)
Definition closeRead (err : option error) (p : t) : t :=
  {| wr := wr p; werr := werr p;
     rerr := store (rerr p) (default ErrClosedPipe err) |}.

(** [pw.CloseWithError(err)]; [pw.Close()] is [closeWrite None]. *)
Definition closeWrite (err : option error) (p : t) : t :=
  {| wr := wr p; rerr := rerr p;
     werr := store (werr p) (default EOF err) |}.

(** The loop condition [once || len(b) > 0]: the writer offers its slice. *)
Definition offering (w : writer) : bool :=
  wonce w || bool_decide (0 < length (wb w)).

(** Entry of [pw.Write(b)]: an immediate return when the pipe is done,
    otherwise the call enters its loop. *)
Definition write_begin (b : list byte) (p : t) : (nat * option error) + t :=
  if done p then inl (0, Some (writeCloseError p))
  else inr {| wr := Some (mkWriter b 0 true); werr := werr p; rerr := rerr p |}.

(** The writer at the head of its loop: it returns [n, nil] when the
    condition fails, returns the close error when the pipe is done, and is
    blocked ([None]) otherwise. *)
Definition write_poll (p : t) : option ((nat * option error) * t) :=
  match wr p with
  | None => None
  | Some w =>
      let p' := {| wr := None; werr := werr p; rerr := rerr p |} in
      if offering w then
        if done p then Some ((wn w, Some (writeCloseError p)), p') else None
      else Some ((wn w, None), p')
  end.

(** [pr.Read(buf)] with [len(buf) = n]: the close error when the pipe is
    done, a rendezvous with the offering writer otherwise ([copy] moves
    [min n (len b)] bytes and the writer advances), blocked ([None]) when
    nobody writes. *)
Definition read (n : nat) (p : t) : option ((list byte * option error) * t) :=
  if done p then Some (([], Some (readCloseError p)), p)
  else
    match wr p with
    | Some w =>
        if offering w then
          let nr := n `min` length (wb w) in
          Some ((take nr (wb w), None),
                {| wr := Some (mkWriter (drop nr (wb w)) (wn w + nr) false);
                   werr := werr p; rerr := rerr p |})
        else None
    | None => None
    end.

End Pipe.

(** ** A buffered channel of errors *)

Module Chan.

Record t := mk {
  cap : nat;
  buf : list (option error);
}.

(** [make(chan error, n)]. *)
Definition make (n : nat) : t := {| cap := n; buf := [] |}.

(** [ch <- v]: blocked ([None]) when the buffer is full. *)
Definition send (v : option error) (ch : t) : option t :=
  if bool_decide (length (buf ch) < cap ch)
  then Some {| cap := cap ch; buf := buf ch ++ [v] |}
  else None.

(** [<-ch]: blocked ([None]) when the buffer is empty. *)
Definition recv (ch : t) : option (option error * t) :=
  match buf ch with
  | v :: rest => Some (v, {| cap := cap ch; buf := rest |})
  | [] => None
  end.

End Chan.

(** ** The minio client *)

(** What an in-flight [PutObject] call does next: read from the reader it was
    given, with a buffer of [n] bytes, or return. *)
Inductive put_action (W : Type) :=
| WantRead (n : nat)
| Return (err : option error) (w : W).
Arguments WantRead {W} n.
Arguments Return {W} err w.

(** The client as the package uses it.  [World] is the state of the remote
    service as seen through the connection.  A [PutObject] call is a resumable
    computation: [PutObject bucket object] is the call at its entry,
    [put_next] tells its next action and [put_resume] continues it with the
    result of the [Read] it asked for. *)
Class Client := {
  World : Type;
  Object : Type;
  PutCall : Type;
  RemoveObject : string → string → World → option error * World;
  GetObject : string → string → World → (Object + error) * World;
  PutObject : string → string → PutCall;
  put_next : PutCall → World → put_action World;
  put_resume : PutCall → list byte → option error → PutCall;
  (* the bytes that reading the object to its end yields *)
  ReadAll : Object → list byte;
}.


(** ** The store *)

(** [Store]: the configuration fields the operations read.  The client [cl]
    and the logger are the environment the operations run in. *)
Record Store := mkStore {
  instName : string;
  endpoint : string;
  bucketName : string;
  objectPrefix : string;
}.

(** [New]: the module constructor; it takes no inline arguments.  The other
    fields are filled in by [Init] from the configuration. *)
Definition New (instName : string) (inlineArgs : list string) : Store + error :=
  if bool_decide (length inlineArgs ≠ 0)
  then inr (Errorf (modName +:+ ": expected 0 arguments"))
  else inl {| instName := instName; endpoint := ""; bucketName := "";
              objectPrefix := "" |}.

Definition Name (s : Store) : string := modName.

Definition InstanceName (s : Store) : string := instName s.

(** Effects of the synchronous operations, in the order they happen: calls
    to the client and lines written by [s.log.Error]. *)
Inductive effect :=
| CallRemoveObject (bucket object : string)
| CallGetObject (bucket object : string)
| LogError (msg : string) (err : error) (fields : list string).

Global Instance effect_eq_dec : EqDecision effect.
Proof. solve_decision. Defined.

Section WithClient.
Context `{cl : Client}.

Record env := mkEnv {
  world : World;
  effects : list effect;
}.

(** State monad of the synchronous operations. *)
Definition M (A : Type) : Type := env → A * env.

#[local] Instance M_ret : MRet M := λ A x e, (x, e).
#[local] Instance M_bind : MBind M := λ A B f m e, let '(x, e') := m e in f x e'.

Definition emit (ev : effect) (e : env) : env :=
  {| world := world e; effects := effects e ++ [ev] |}.

(** [s.cl.RemoveObject(ctx, bucket, object, opts)]. *)
Definition cl_RemoveObject (bucket object : string) : M (option error) :=
  λ e, let '(r, w) := RemoveObject bucket object (world e) in
       (r, {| world := w; effects := effects e ++ [CallRemoveObject bucket object] |}).

(** [s.cl.GetObject(ctx, bucket, object, opts)]. *)
Definition cl_GetObject (bucket object : string) : M (Object + error) :=
  λ e, let '(r, w) := GetObject bucket object (world e) in
       (r, {| world := w; effects := effects e ++ [CallGetObject bucket object] |}).

(** [s.log.Error(msg, err, fields...)]. *)
Definition log_Error (msg : string) (err : error) (fields : list string) : M unit :=
  λ e, (tt, emit (LogError msg err fields) e).

(** [Store.Open]. *)
Definition Open (s : Store) (key : string) : M (Object + error) :=
  r ← cl_GetObject (bucketName s) (objectPrefix s +:+ key);
  match r with
  | inr err =>
      let resp := ToErrorResponse err in
      if bool_decide (StatusCode resp = StatusNotFound)
      then mret (inr ErrNoSuchBlob)
      else mret (inr err)
  | inl obj => mret (inl obj)
  end.

(** The body of the [for _, k := range keys] loop of [Store.Delete], with the
    variable [lastErr] it assigns. *)
Fixpoint Delete_loop (s : Store) (keys : list string) (lastErr : option error)
  : M (option error) :=
  match keys with
  | [] => mret lastErr
  | k :: keys' =>
      lastErr ← cl_RemoveObject (bucketName s) (objectPrefix s +:+ k);
      _ ← match lastErr with
          | Some err => log_Error "failed to delete object" err [objectPrefix s +:+ k]
          | None => mret tt
          end;
      Delete_loop s keys' lastErr
  end.

(** [Store.Delete]. *)
Definition Delete (s : Store) (keys : list string) : M (option error) :=
  Delete_loop s keys None.

(** ** The write handle *)

(** [s3blob].  [pw] is the pipe whose read end the upload goroutine holds,
    [errCh] the channel on which the goroutine sends: both objects are
    shared with it, so the system state below keeps a single copy, here. *)
Record s3blob := mkBlob {
  pw : Pipe.t;
  didSync : bool;
  errCh : Chan.t;
}.

Definition syncTwice : string :=
  "storage.blob.s3: Sync called twice for a blob object".

Definition closedWithoutSync : error :=
  Errorf "storage.blob.s3: blob closed without Sync".

(** [s3blob.Sync] up to its receive: the panic, or the pipe closed and the
    flag set. *)
Definition Sync_begin (b : s3blob) : string + s3blob :=
  if didSync b then inl syncTwice
  else inr {| pw := Pipe.closeWrite None (pw b); didSync := true; errCh := errCh b |}.

(** [return <-b.errCh]. *)
Definition Sync_recv (b : s3blob) : option (option error * s3blob) :=
  match Chan.recv (errCh b) with
  | Some (v, ch) => Some (v, {| pw := pw b; didSync := didSync b; errCh := ch |})
  | None => None
  end.

(** [s3blob.Write]: entry, and the call in progress. *)
Definition Write_begin (p : list byte) (b : s3blob) : (nat * option error) + s3blob :=
  match Pipe.write_begin p (pw b) with
  | inl r => inl r
  | inr pipe => inr {| pw := pipe; didSync := didSync b; errCh := errCh b |}
  end.

Definition Write_poll (b : s3blob) : option ((nat * option error) * s3blob) :=
  match Pipe.write_poll (pw b) with
  | Some (r, pipe) => Some (r, {| pw := pipe; didSync := didSync b; errCh := errCh b |})
  | None => None
  end.

(** [s3blob.Close]. *)
Definition Close (b : s3blob) : option error * s3blob :=
  let b' :=
    if negb (didSync b)
    then {| pw := Pipe.closeWrite (Some closedWithoutSync) (pw b);
            didSync := didSync b; errCh := errCh b |}
    else b in
  (None, b').

(** ** The upload goroutine *)

(** Where the goroutine started by [Create] stands. *)
Inductive task_state :=
| TPutObject (c : PutCall)            (* inside s.cl.PutObject(..., pr, -1, ...) *)
| TReturned (err : option error)      (* PutObject returned err; at `if err != nil` *)
| TSend (err : option error)          (* at `errCh <- err` *)
| TExit.

(** [Store.Create]: the handle and the goroutine it starts.  The error it
    returns is always nil. *)
Definition Create (s : Store) (key : string) : s3blob * task_state :=
  let pipe := Pipe.new in
  let errCh := Chan.make 1 in
  ({| pw := pipe; didSync := false; errCh := errCh |},
   TPutObject (PutObject (bucketName s) (objectPrefix s +:+ key))).

(** ** The handle, its caller and the goroutine as one system *)

(** The calls a caller makes on its handle. *)
Inductive op :=
| OpWrite (p : list byte)
| OpSync
| OpClose.

Inductive result :=
| RetWrite (n : nat) (err : option error)
| RetSync (err : option error)
| RetClose (err : option error).

Inductive event :=
| ECall (o : op)
| ERet (r : result)
| EPanic (msg : string)
| ERead (data : list byte) (err : option error)   (* a Read of PutObject returned *)
| EPutReturn (err : option error)                 (* PutObject returned *)
| ESend (v : option error).                       (* errCh <- v done *)

(** The caller owns the handle alone and calls one method at a time. *)
Inductive caller_state :=
| Ready
| InWrite
| InSync
| Panicked (msg : string).

Inductive thread := Caller | Task.

Record sys := mkSys {
  remote : World;
  blob : s3blob;
  prog : list op;          (* the calls the caller has yet to make *)
  caller : caller_state;
  task : task_state;
  trace : list event;
}.

(** The system right after [s.Create(key)] returned to a caller that is
    about to make the calls [ops]. *)
Definition start (s : Store) (key : string) (w : World) (ops : list op) : sys :=
  let '(b, t) := Create s key in
  {| remote := w; blob := b; prog := ops; caller := Ready; task := t; trace := [] |}.

(** One atomic step of the caller; [None] when it is blocked or has
    nothing left to do. *)
Definition caller_step (s : sys) : option sys :=
  match caller s with
  | Ready =>
      match prog s with
      | [] => None
      | OpWrite p :: rest =>
          match Write_begin p (blob s) with
          | inl (n, err) =>
              Some {| remote := remote s; blob := blob s; prog := rest; caller := Ready;
                      task := task s;
                      trace := trace s ++ [ECall (OpWrite p); ERet (RetWrite n err)] |}
          | inr b =>
              Some {| remote := remote s; blob := b; prog := rest; caller := InWrite;
                      task := task s; trace := trace s ++ [ECall (OpWrite p)] |}
          end
      | OpSync :: rest =>
          match Sync_begin (blob s) with
          | inl msg =>
              Some {| remote := remote s; blob := blob s; prog := rest;
                      caller := Panicked msg; task := task s;
                      trace := trace s ++ [ECall OpSync; EPanic msg] |}
          | inr b =>
              Some {| remote := remote s; blob := b; prog := rest; caller := InSync;
                      task := task s; trace := trace s ++ [ECall OpSync] |}
          end
      | OpClose :: rest =>
          let '(err, b) := Close (blob s) in
          Some {| remote := remote s; blob := b; prog := rest; caller := Ready;
                  task := task s;
                  trace := trace s ++ [ECall OpClose; ERet (RetClose err)] |}
      end
  | InWrite =>
      match Write_poll (blob s) with
      | Some ((n, err), b) =>
          Some {| remote := remote s; blob := b; prog := prog s; caller := Ready;
                  task := task s; trace := trace s ++ [ERet (RetWrite n err)] |}
      | None => None
      end
  | InSync =>
      match Sync_recv (blob s) with
      | Some (v, b) =>
          Some {| remote := remote s; blob := b; prog := prog s; caller := Ready;
                  task := task s; trace := trace s ++ [ERet (RetSync v)] |}
      | None => None
      end
  | Panicked _ => None
  end.

Definition with_pipe (b : s3blob) (p : Pipe.t) : s3blob :=
  {| pw := p; didSync := didSync b; errCh := errCh b |}.

(** One atomic step of the goroutine of [Create]; [None] when it is blocked
    or has exited. *)
Definition task_step (s : sys) : option sys :=
  match task s with
  | TPutObject c =>
      match put_next c (remote s) with
      | WantRead n =>
          match Pipe.read n (pw (blob s)) with
          | Some ((data, err), p) =>
              Some {| remote := remote s; blob := with_pipe (blob s) p; prog := prog s;
                      caller := caller s; task := TPutObject (put_resume c data err);
                      trace := trace s ++ [ERead data err] |}
          | None => None
          end
      | Return err w =>
          Some {| remote := w; blob := blob s; prog := prog s; caller := caller s;
                  task := TReturned err; trace := trace s ++ [EPutReturn err] |}
      end
  | TReturned err =>
      let p := match err with
               | Some e => Pipe.closeRead (Some (ErrorfW "s3 PutObject: " e)) (pw (blob s))
               | None => pw (blob s)
               end in
      Some {| remote := remote s; blob := with_pipe (blob s) p; prog := prog s;
              caller := caller s; task := TSend err; trace := trace s |}
  | TSend err =>
      match Chan.send err (errCh (blob s)) with
      | Some ch =>
          Some {| remote := remote s;
                  blob := {| pw := pw (blob s); didSync := didSync (blob s); errCh := ch |};
                  prog := prog s; caller := caller s; task := TExit;
                  trace := trace s ++ [ESend err] |}
      | None => None
      end
  | TExit => None
  end.

Definition step (t : thread) (s : sys) : option sys :=
  match t with
  | Caller => caller_step s
  | Task => task_step s
  end.

(** Run a schedule; [None] when it asks a thread to move that cannot. *)
Fixpoint exec (sched : list thread) (s : sys) : option sys :=
  match sched with
  | [] => Some s
  | t :: sched' =>
      match step t s with
      | Some s' => exec sched' s'
      | None => None
      end
  end.

End WithClient.

(** ** An in-memory client

    A client whose remote service is a list of named objects, at most one
    per (bucket, object).  Requests naming an object of the [denied] list are
    refused with status 403; a missing object is reported with status 404.
    Its [PutObject] reads four bytes at a time until its reader reports an
    error, and stores what it read when that error is [io.EOF]. *)

Module Mem.

Record service := mkService {
  objects : list (string * string * list byte);
  denied : list string;
}.

Definition lookup (bucket object : string) (objs : list (string * string * list byte))
  : option (list byte) :=
  snd <$> head (filter (λ e, e.1 = (bucket, object)) objs).

Definition erase (bucket object : string) (objs : list (string * string * list byte))
  : list (string * string * list byte) :=
  filter (λ e, e.1 ≠ (bucket, object)) objs.

Inductive put_status :=
| Reading
| SawEOF
| Failed (e : error).

Record put_call := mkPut {
  pbucket : string;
  pobject : string;
  pbuf : list byte;
  pstatus : put_status;
}.

Definition AccessDenied : error :=
  MinioErr {| Code := "AccessDenied"; Message := "Access Denied."; StatusCode := 403 |}.

Definition NoSuchKey : error :=
  MinioErr {| Code := "NoSuchKey"; Message := "The specified key does not exist.";
              StatusCode := 404 |}.

Definition remove (bucket object : string) (w : service) : option error * service :=
  if bool_decide (object ∈ denied w) then (Some AccessDenied, w)
  else (None, {| objects := erase bucket object (objects w); denied := denied w |}).

Definition get (bucket object : string) (w : service) : (list byte + error) * service :=
  if bool_decide (object ∈ denied w) then (inr AccessDenied, w)
  else match lookup bucket object (objects w) with
       | Some data => (inl data, w)
       | None => (inr NoSuchKey, w)
       end.

Definition put (bucket object : string) : put_call :=
  {| pbucket := bucket; pobject := object; pbuf := []; pstatus := Reading |}.

Definition next (c : put_call) (w : service) : put_action service :=
  if bool_decide (pobject c ∈ denied w) then Return (Some AccessDenied) w
  else match pstatus c with
       | Reading => WantRead 4
       | SawEOF =>
           Return None
             {| objects := (pbucket c, pobject c, pbuf c)
                             :: erase (pbucket c) (pobject c) (objects w);
                denied := denied w |}
       | Failed e => Return (Some e) w
       end.

Definition resume (c : put_call) (data : list byte) (err : option error) : put_call :=
  {| pbucket := pbucket c; pobject := pobject c; pbuf := pbuf c ++ data;
     pstatus := match pstatus c, err with
                | Reading, None => Reading
                | Reading, Some EOF => SawEOF
                | Reading, Some e => Failed e
                | st, _ => st
                end |}.

#[export] Instance client : Client := {|
  World := service;
  Object := list byte;
  PutCall := put_call;
  RemoveObject := remove;
  GetObject := get;
  PutObject := put;
  put_next := next;
  put_resume := resume;
  ReadAll := λ data, data;
|}.

Definition store : Store :=
  {| instName := "test"; endpoint := "localhost:9000"; bucketName := "mail";
     objectPrefix := "blobs/" |}.

Definition empty : service := {| objects := []; denied := [] |}.

End Mem.

Global Instance thread_eq_dec : EqDecision thread.
Proof. solve_decision. Defined.

(** ** Reading traces *)

Section Observations.
Context `{cl : Client}.

(** The outcomes of a series of removals, each on the state its predecessors
    left. *)
Fixpoint remove_all (bucket : string) (objs : list string) (w : World)
  : list (string * option error) :=
  match objs with
  | [] => []
  | o :: objs' =>
      (o, (RemoveObject bucket o w).1) :: remove_all bucket objs' (RemoveObject bucket o w).2
  end.

Fixpoint remove_all_world (bucket : string) (objs : list string) (w : World) : World :=
  match objs with
  | [] => w
  | o :: objs' => remove_all_world bucket objs' (RemoveObject bucket o w).2
  end.

(** The objects [RemoveObject] was called on, in order. *)
Definition removals (effs : list effect) : list (string * string) :=
  omap (λ ev, match ev with CallRemoveObject b o => Some (b, o) | _ => None end) effs.

(** What [Delete] does for one key: the call, and a log line if it failed. *)
Definition removal_effects (bucket : string) (r : string * option error) : list effect :=
  CallRemoveObject bucket r.1 ::
  match r.2 with
  | Some err => [LogError "failed to delete object" err [r.1]]
  | None => []
  end.

(** The results of the [Read]s of the [PutObject] call, in order. *)
Definition reads (tr : list event) : list (list byte * option error) :=
  omap (λ ev, match ev with ERead d e => Some (d, e) | _ => None end) tr.

(** The bytes delivered to the [PutObject] call so far. *)
Definition fed (tr : list event) : list byte := concat (reads tr).*1.

Definition sends (tr : list event) : list (option error) :=
  omap (λ ev, match ev with ESend v => Some v | _ => None end) tr.

Definition put_returns (tr : list event) : list (option error) :=
  omap (λ ev, match ev with EPutReturn v => Some v | _ => None end) tr.

Definition sync_returns (tr : list event) : list (option error) :=
  omap (λ ev, match ev with ERet (RetSync v) => Some v | _ => None end) tr.

Definition write_returns (tr : list event) : list (nat * option error) :=
  omap (λ ev, match ev with ERet (RetWrite n e) => Some (n, e) | _ => None end) tr.

Definition sync_calls (tr : list event) : nat :=
  length (omap (λ ev, match ev with ECall OpSync => Some tt | _ => None end) tr).

(** A [Write] call that returned: its slice, the count and the error. *)
Definition write_record : Type := list byte * nat * option error.

(** Pair every return of [Write] with the slice of its call. *)
Definition track (st : list write_record * option (list byte)) (ev : event)
  : list write_record * option (list byte) :=
  match ev with
  | ECall (OpWrite p) => (st.1, Some p)
  | ERet (RetWrite n e) => (st.1 ++ [(default [] st.2, n, e)], None)
  | _ => st
  end.

(** The [Write] calls that returned, in order. *)
Definition writes (tr : list event) : list write_record :=
  (fold_left track tr ([], None)).1.

(** The slice of the [Write] call in progress. *)
Definition writing (tr : list event) : option (list byte) :=
  (fold_left track tr ([], None)).2.

(** The bytes the returned [Write] calls reported as written. *)
Definition delivered (ws : list write_record) : list byte :=
  concat ((λ r, take r.1.2 r.1.1) <$> ws).

(** The histories of a [PutObject] call that runs against the remote state
    [w]: every [Read] it is resumed with is one it asked for, and returns no
    more bytes than its buffer holds. *)
Inductive put_run (w : World) (c0 : PutCall)
  : list (list byte * option error) → PutCall → Prop :=
| put_run_nil : put_run w c0 [] c0
| put_run_read rs c n data err :
    put_run w c0 rs c →
    put_next c w = WantRead n →
    length data ≤ n →
    put_run w c0 (rs ++ [(data, err)]) (put_resume c data err).

(** What a client promises of every [PutObject] call that returns nil: [Q]
    of the names it was called with, the reads it made and the remote state
    it left. *)
Definition put_ensures
    (Q : string → string → list (list byte * option error) → World → Prop) : Prop :=
  ∀ bucket object w rs c w',
    put_run w (PutObject bucket object) rs c →
    put_next c w = Return None w' → Q bucket object rs w'.

(** A [PutObject] that reports success has read its source up to [io.EOF]. *)
Definition put_eof_before_success : Prop :=
  put_ensures (λ _ _ rs _, ∃ d, (d, Some EOF) ∈ rs).

(** The contract of a faithful client: a [PutObject] that reports success
    has read its source up to [io.EOF], and a later [GetObject] of the same
    name yields the bytes it read. *)
Definition put_get_contract : Prop :=
  put_ensures (λ bucket object rs w',
    (∃ d, (d, Some EOF) ∈ rs) ∧
    ∃ obj w'', GetObject bucket object w' = (inl obj, w'') ∧ ReadAll obj = concat rs.*1).

(** A client whose [PutObject] never asks for a [Read] into an empty buffer. *)
Definition put_reads_nonempty : Prop :=
  ∀ (c : PutCall) w n, put_next c w = WantRead n → 0 < n.

(** The states a schedule can reach. *)
Definition reachable (s0 s : sys) : Prop := ∃ sched, exec sched s0 = Some s.

End Observations.

(** * Properties *)

(** ** Open and Delete *)

Section OpenDelete.
Context `{cl : Client}.

Lemma removals_app (e1 e2 : list effect) :
  removals (e1 ++ e2) = removals e1 ++ removals e2.
Proof. apply omap_app. Qed.

Lemma removals_removal_effects bucket (rs : list (string * option error)) :
  removals (rs ≫= removal_effects bucket) = (λ r, (bucket, r.1)) <$> rs.
Proof.
  induction rs as [|[o r] rs IH]; [done|].
  rewrite bind_cons, removals_app, IH, fmap_cons. by destruct r.
Qed.

Lemma remove_all_fst bucket objs w : (remove_all bucket objs w).*1 = objs.
Proof.
  revert w. induction objs as [|o objs IH]; intros w; simpl; [done|]. by rewrite IH.
Qed.

(** The loop, whatever the value of [lastErr] it is entered with. *)
Lemma Delete_loop_run (s : Store) (keys : list string) lastErr (e : env) :
  let objs := (λ k, objectPrefix s +:+ k) <$> keys in
  let rs := remove_all (bucketName s) objs (world e) in
  Delete_loop s keys lastErr e =
    (default lastErr (last rs.*2),
     {| world := remove_all_world (bucketName s) objs (world e);
        effects := effects e ++ (rs ≫= removal_effects (bucketName s)) |}).
Proof.
  revert lastErr e. induction keys as [|k keys IH]; intros lastErr e; simpl.
  - destruct e as [w effs]. unfold mret, M_ret. simpl. by rewrite app_nil_r.
  - unfold mbind, M_bind, cl_RemoveObject.
    destruct (RemoveObject (bucketName s) (objectPrefix s +:+ k) (world e))
      as [r w] eqn:Hr.
    destruct r as [err|]; simpl.
    all: rewrite IH; simpl; rewrite <- !app_assoc; simpl.
    all: f_equal; rewrite last_cons; by destruct (last _).
Qed.

(** [Delete] returns the outcome of the removal of the last key, and nil for
    an empty list: a failure is reported only when it is the last key's. *)
Lemma Delete_returns_last_outcome (s : Store) (keys : list string) (e : env) :
  (Delete s keys e).1 =
    default None (last (remove_all (bucketName s) ((λ k, objectPrefix s +:+ k) <$> keys)
                          (world e)).*2).
Proof. unfold Delete. by rewrite Delete_loop_run. Qed.

(** C7: [Open] passes the object of a successful [GetObject] on, turns an
    error whose response status is 404 into [ErrNoSuchBlob], and returns any
    other error as it is; it makes exactly one [GetObject] call, on the
    prefixed key.  So it answers [ErrNoSuchBlob] exactly when the client
    reported status 404 (or handed back that very sentinel). *)
Theorem Open_maps_not_found (s : Store) (key : string) (e : env) :
  let call := GetObject (bucketName s) (objectPrefix s +:+ key) (world e) in
  let res := (Open s key e).1 in
  (∀ obj, call.1 = inl obj → res = inl obj) ∧
  (∀ err, call.1 = inr err →
          StatusCode (ToErrorResponse err) = 404%Z → res = inr ErrNoSuchBlob) ∧
  (∀ err, call.1 = inr err →
          StatusCode (ToErrorResponse err) ≠ 404%Z → res = inr err) ∧
  (res = inr ErrNoSuchBlob ↔
     ∃ err, call.1 = inr err ∧
            (StatusCode (ToErrorResponse err) = 404%Z ∨ err = ErrNoSuchBlob)) ∧
  (Open s key e).2 =
    {| world := call.2;
       effects := effects e ++ [CallGetObject (bucketName s) (objectPrefix s +:+ key)] |}.
Proof.
  simpl. unfold Open, mbind, M_bind, cl_GetObject, StatusNotFound.
  destruct (GetObject (bucketName s) (objectPrefix s +:+ key) (world e))
    as [[obj|err] w]; simpl.
  - repeat split; try done; try (intros; simplify_eq; done).
    intros (err & ? & _); done.
  - case_bool_decide as Hst; simpl; repeat split; intros; simplify_eq; try done.
    + exists err; auto.
    + exists ErrNoSuchBlob; auto.
    + destruct H as (err' & ? & [?|?]); simplify_eq; done.
Qed.

(** C8: [Delete] calls [RemoveObject] once for every key, in the order of
    the list and on the prefixed key, whether or not earlier removals failed;
    each failure is logged right after the call that failed and before the
    next removal; the remote state is the one all the removals leave. *)
Theorem Delete_attempts_every_key (s : Store) (keys : list string) (e : env) :
  let objs := (λ k, objectPrefix s +:+ k) <$> keys in
  let outcomes := remove_all (bucketName s) objs (world e) in
  let e' := (Delete s keys e).2 in
  removals (effects e') = removals (effects e) ++ ((λ o, (bucketName s, o)) <$> objs) ∧
  effects e' = effects e ++ (outcomes ≫= removal_effects (bucketName s)) ∧
  outcomes.*1 = objs ∧
  world e' = remove_all_world (bucketName s) objs (world e).
Proof.
  simpl. unfold Delete. rewrite Delete_loop_run. simpl.
  split_and!; [|done|apply remove_all_fst|done].
  rewrite removals_app, removals_removal_effects. f_equal.
  rewrite <- (remove_all_fst (bucketName s) _ (world e)) at 2.
  by rewrite <- !list_fmap_compose.
Qed.

End OpenDelete.

(** C2: with three keys of which the second cannot be removed, [Delete]
    logs the failure and returns nil: the assignment of the last removal's
    outcome overwrites the error. *)
Theorem Delete_forgets_earlier_failure :
  let e := @mkEnv Mem.client (Mem.mkService [] ["blobs/k2"]) [] in
  let r := Delete Mem.store ["k1"; "k2"; "k3"] e in
  r.1 = None ∧
  effects r.2 =
    [CallRemoveObject "mail" "blobs/k1";
     CallRemoveObject "mail" "blobs/k2";
     LogError "failed to delete object" Mem.AccessDenied ["blobs/k2"];
     CallRemoveObject "mail" "blobs/k3"].
Proof. vm_compute. done. Qed.

(** ** The write protocol *)

(** Case analysis on a step that happened. *)
Ltac step_inv H :=
  unfold step, caller_step, task_step, Write_begin, Write_poll, Sync_begin,
    Sync_recv, Close, with_pipe in H;
  unfold Pipe.write_begin, Pipe.write_poll, Pipe.read, Pipe.closeWrite,
    Pipe.closeRead, Chan.send, Chan.recv in H;
  repeat (case_match; simplify_eq/=; try done).

(** Use the equations an invariant gives about the trace and the pipe. *)
Ltac use_eqs :=
  repeat match goal with
    | H : _ ∧ _ |- _ => destruct H
    | H : ∃ _, _ |- _ => destruct H
    end;
  repeat match goal with
    | H : omap _ _ = _ |- _ => rewrite !H in *; clear H
    | H : Chan.buf _ = _ |- _ => rewrite !H in *; clear H
    | H : Pipe.rerr _ = _ |- _ => rewrite !H in *; clear H
    | H : Pipe.werr _ = _ |- _ => rewrite !H in *; clear H
    end; simplify_eq/=.

Ltac trace_simpl :=
  unfold fed, reads, sends, put_returns, sync_returns, write_returns, sync_calls in *;
  rewrite ?omap_app in *; simpl in *; rewrite ?app_nil_r in *.

(** Facts about the pipe. *)

Lemma Pipe_done_false (p : Pipe.t) :
  Pipe.done p = false ↔ Pipe.werr p = None ∧ Pipe.rerr p = None.
Proof.
  unfold Pipe.done. destruct (Pipe.werr p), (Pipe.rerr p); simpl; split; try done.
  all: intros [??]; done.
Qed.

Lemma Pipe_done_true (p : Pipe.t) :
  Pipe.done p = true ↔ is_Some (Pipe.werr p) ∨ is_Some (Pipe.rerr p).
Proof.
  unfold Pipe.done. rewrite orb_true_iff, !bool_decide_eq_true. done.
Qed.

Ltac done_facts :=
  repeat match goal with
    | H : Pipe.done _ = false |- _ => apply Pipe_done_false in H; destruct H
    | H : Pipe.done _ = true |- _ => apply Pipe_done_true in H
    end.

Section Protocol.
Context `{cl : Client}.

Lemma exec_app sched1 sched2 (s : sys) :
  exec (sched1 ++ sched2) s = exec sched1 s ≫= exec sched2.
Proof.
  revert s. induction sched1 as [|t sched1 IH]; intros s; simpl; [done|].
  destruct (step t s); simpl; auto.
Qed.

Lemma reachable_refl (s : sys) : reachable s s.
Proof. by exists []. Qed.

Lemma reachable_step (s0 s s' : sys) t :
  reachable s0 s → step t s = Some s' → reachable s0 s'.
Proof.
  intros [sched Hs] Ht. exists (sched ++ [t]).
  rewrite exec_app, Hs. simpl. by rewrite Ht.
Qed.

(** Induction over the steps of a run. *)
Lemma reachable_ind (P : sys → Prop) (s0 : sys) :
  P s0 →
  (∀ t s s', reachable s0 s → P s → step t s = Some s' → P s') →
  ∀ s, reachable s0 s → P s.
Proof.
  intros H0 Hstep s [sched Hs]. revert s Hs.
  induction sched as [|t sched IH] using rev_ind; intros s Hs.
  - simpl in Hs. by simplify_eq.
  - rewrite exec_app in Hs.
    destruct (exec sched s0) as [s1|] eqn:H1; simpl in Hs; [|done].
    destruct (step t s1) as [s2|] eqn:H2; simpl in Hs; [|done]. simplify_eq.
    eapply Hstep; [by exists sched| |done]. by apply IH.
Qed.

(** *** The goroutine, the channel and what [Sync] receives *)

(** What the position of the goroutine says about the trace, the channel
    and the read end of the pipe. *)
Definition task_inv (s : sys) : Prop :=
  Chan.cap (errCh (blob s)) = 1 ∧
  match task s with
  | TPutObject _ =>
      put_returns (trace s) = [] ∧ sends (trace s) = [] ∧
      Chan.buf (errCh (blob s)) = [] ∧ sync_returns (trace s) = [] ∧
      Pipe.rerr (pw (blob s)) = None
  | TReturned r =>
      put_returns (trace s) = [r] ∧ sends (trace s) = [] ∧
      Chan.buf (errCh (blob s)) = [] ∧ sync_returns (trace s) = [] ∧
      Pipe.rerr (pw (blob s)) = None
  | TSend r =>
      put_returns (trace s) = [r] ∧ sends (trace s) = [] ∧
      Chan.buf (errCh (blob s)) = [] ∧ sync_returns (trace s) = [] ∧
      Pipe.rerr (pw (blob s)) = ErrorfW "s3 PutObject: " <$> r
  | TExit =>
      ∃ r, put_returns (trace s) = [r] ∧ sends (trace s) = [r] ∧
           Pipe.rerr (pw (blob s)) = ErrorfW "s3 PutObject: " <$> r ∧
           ((Chan.buf (errCh (blob s)) = [r] ∧ sync_returns (trace s) = []) ∨
            (Chan.buf (errCh (blob s)) = [] ∧ sync_returns (trace s) = [r]))
  end.

Lemma task_inv_start (st : Store) key w ops : task_inv (start st key w ops).
Proof. by repeat split. Qed.

Lemma task_inv_step t (s s' : sys) :
  task_inv s → step t s = Some s' → task_inv s'.
Proof.
  intros [Hcap Hinv] Hstep. destruct t.
  - step_inv Hstep; unfold task_inv; simpl; trace_simpl;
      try by (split; [done|naive_solver]).
    split; [done|].
    destruct Hinv as (r & Hp & Hs & Hr & [[Hb Hy]|[Hb Hy]]); simplify_eq.
    exists r. rewrite Hy. naive_solver.
  - step_inv Hstep; unfold task_inv; simpl; trace_simpl;
      try by (split; [done|naive_solver]).
    all: use_eqs; try done.
    split; [done|]. exists err. naive_solver.
Qed.

Lemma task_inv_reachable (st : Store) key w ops (s : sys) :
  reachable (start st key w ops) s → task_inv s.
Proof.
  apply reachable_ind; [apply task_inv_start|].
  intros t s1 s2 _. apply task_inv_step.
Qed.

(** *** The handle and its caller *)

(** What the position of the caller and the flag [didSync] say about the
    write end of the pipe and about the calls made so far. *)
Definition handle_inv (s : sys) : Prop :=
  let p := pw (blob s) in
  match caller s with
  | InWrite => is_Some (Pipe.wr p) ∧ Pipe.werr p = None
  | InSync => Pipe.wr p = None ∧ didSync (blob s) = true
  | _ => Pipe.wr p = None
  end ∧
  if didSync (blob s)
  then (Pipe.werr p = Some EOF ∨ Pipe.werr p = Some closedWithoutSync) ∧
       0 < sync_calls (trace s)
  else (Pipe.werr p = None ∨ Pipe.werr p = Some closedWithoutSync) ∧
       sync_calls (trace s) = 0.

Lemma handle_inv_start (st : Store) key w ops : handle_inv (start st key w ops).
Proof. repeat split; auto. Qed.

Lemma handle_inv_step t (s s' : sys) :
  handle_inv s → step t s = Some s' → handle_inv s'.
Proof.
  intros [Hc Hd] Hstep. destruct t.
  - step_inv Hstep; done_facts; unfold handle_inv; simpl; trace_simpl;
      try rewrite length_app; simpl.
    all: try match goal with H : didSync _ = _ |- _ => rewrite H in *; simpl in * end.
    all: try (destruct Hd as [[Hd|Hd] ?]; rewrite ?Hd in *; simpl in * ).
    all: try by naive_solver.
    all: try by (split_and?; eauto; lia).
  - step_inv Hstep; done_facts; unfold handle_inv; simpl; trace_simpl.
    all: try match goal with H : didSync _ = _ |- _ => rewrite H in *; simpl in * end.
    all: try by naive_solver.
Qed.

Lemma handle_inv_reachable (st : Store) key w ops (s : sys) :
  reachable (start st key w ops) s → handle_inv s.
Proof.
  apply reachable_ind; [apply handle_inv_start|].
  intros t s1 s2 _. apply handle_inv_step.
Qed.

Lemma reachable_exec (s0 s s' : sys) sched :
  reachable s0 s → exec sched s = Some s' → reachable s0 s'.
Proof.
  intros [sched0 H0] H. exists (sched0 ++ sched). rewrite exec_app, H0. done.
Qed.







(** A value [Sync] returned is the one the goroutine sent after
    [PutObject] returned it. *)
Lemma task_inv_sync_returned (s : sys) (v : option error) :
  task_inv s → v ∈ sync_returns (trace s) →
  task s = TExit ∧ put_returns (trace s) = [v] ∧
  Pipe.rerr (pw (blob s)) = ErrorfW "s3 PutObject: " <$> v.
Proof.
  intros [_ Hr] Hv.
  destruct (task s); destruct_and?;
    try (destruct Hr as (r & ? & ? & ? & [[? Hy]|[? Hy]]));
    try match goal with H : sync_returns _ = _ |- _ => rewrite H in * end;
    try by apply elem_of_nil in Hv.
  apply list_elem_of_singleton in Hv as ->. done.
Qed.

(** Every return of [Close] in a run carries nil. *)
Lemma Close_returns_nil_in_runs (s0 s : sys) (err : option error) :
  ERet (RetClose err) ∉ trace s0 →
  reachable s0 s → ERet (RetClose err) ∈ trace s → err = None.
Proof.
  intros H0 Hr. revert s Hr.
  apply (reachable_ind (λ s, ERet (RetClose err) ∈ trace s → err = None)); [done|].
  intros t s s' _ IH Hstep Hin.
  destruct t; step_inv Hstep; try (by apply IH).
  all: apply elem_of_app in Hin as [Hin|Hin]; [by apply IH|].
  all: repeat (apply elem_of_cons in Hin as [Hin|Hin]; [by simplify_eq|]).
  all: by apply elem_of_nil in Hin.
Qed.

(** *** Claims about the handle *)

(** C10: [Close] returns nil whatever the state of the handle, committed
    or not; it leaves the flag and the channel of the handle as they were, so
    that closing an uncommitted handle shows only on the pipe, where the
    upload reads. *)
Theorem Close_returns_nil (b : s3blob) :
  (Close b).1 = None ∧
  didSync (Close b).2 = didSync b ∧
  errCh (Close b).2 = errCh b ∧
  Pipe.rerr (pw (Close b).2) = Pipe.rerr (pw b) ∧
  Pipe.wr (pw (Close b).2) = Pipe.wr (pw b).
Proof. unfold Close. destruct (didSync b) eqn:Hs; simpl; by rewrite ?Hs. Qed.

(** C4: once [Sync] has been called on a handle, a further call of [Sync]
    panics with the message of the source, receives nothing and returns
    nothing, whatever the caller wrote before and however the goroutine was
    scheduled; no run contains two returns of [Sync]. *)
Theorem Sync_twice_panics (st : Store) (key : string) (w : World) (ops : list op)
    (s : sys) :
  reachable (start st key w ops) s →
  length (sync_returns (trace s)) ≤ 1 ∧
  (0 < sync_calls (trace s) → caller s = Ready →
   ∀ rest, prog s = OpSync :: rest →
     step Caller s =
       Some {| remote := remote s; blob := blob s; prog := rest;
               caller := Panicked syncTwice; task := task s;
               trace := trace s ++ [ECall OpSync; EPanic syncTwice] |}) ∧
  (∀ msg, caller s = Panicked msg → msg = syncTwice ∧ step Caller s = None).
Proof.
  intros Hr. split_and!.
  - apply task_inv_reachable in Hr as [_ Hr].
    destruct (task s); destruct_and?; try (destruct Hr as (r & ? & ? & ? & [[? Hy]|[? Hy]]));
      try match goal with H : sync_returns _ = _ |- _ => rewrite H end; simpl; lia.
  - intros Hcalls Hready rest Hprog.
    apply handle_inv_reachable in Hr as [_ Hd].
    destruct (didSync (blob s)) eqn:Hsync; [|destruct Hd; lia].
    unfold step, caller_step, Sync_begin. by rewrite Hready, Hprog, Hsync.
  - revert s Hr. apply (reachable_ind (λ s, ∀ msg, caller s = Panicked msg → msg = syncTwice ∧ step Caller s = None)).
    + done.
    + intros t s s' _ IH Hstep msg Hc. split; [|by simpl; unfold caller_step; rewrite Hc].
      destruct t; step_inv Hstep; try by (eapply IH; eauto).
Qed.
(** C3 (as amended): what [Sync] returns is the one value the goroutine
    sent, and that value is what [PutObject] returned: nil on success, and on
    failure the client's error itself.  The error wrapped with the prefix
    "s3 PutObject: " is the one the read end of the pipe is closed with. *)
Theorem Sync_returns_posted_value (st : Store) (key : string) (w : World)
    (ops : list op) (s : sys) (v : option error) :
  reachable (start st key w ops) s →
  v ∈ sync_returns (trace s) →
  sync_returns (trace s) = [v] ∧
  sends (trace s) = [v] ∧
  put_returns (trace s) = [v] ∧
  Pipe.rerr (pw (blob s)) = ErrorfW "s3 PutObject: " <$> v.
Proof.
  intros Hr Hv. apply task_inv_reachable in Hr as [_ Hr].
  destruct (task s); destruct_and?;
    try (destruct Hr as (r & ? & ? & ? & [[? Hy]|[? Hy]]));
    try match goal with H : sync_returns _ = _ |- _ => rewrite H in * end;
    try by apply elem_of_nil in Hv.
  apply list_elem_of_singleton in Hv as ->. done.
Qed.


(** *** What the upload stores *)

Lemma Pipe_read_length n (p p' : Pipe.t) data err :
  Pipe.read n p = Some ((data, err), p') → length data ≤ n.
Proof.
  unfold Pipe.read. intros H. repeat case_match; simplify_eq/=; [lia|].
  rewrite length_take. lia.
Qed.

(** While [PutObject] runs, its state is the one its [Read]s so far lead to;
    once it has returned nil, what the client promises of a successful call
    holds of the reads it made and of the remote state. *)
Definition upload_inv
    (Q : string → string → list (list byte * option error) → World → Prop)
    (st : Store) (key : string) (s : sys) : Prop :=
  let bucket := bucketName st in
  let object := objectPrefix st +:+ key in
  match task s with
  | TPutObject c => put_run (remote s) (PutObject bucket object) (reads (trace s)) c
  | _ => put_returns (trace s) = [None] → Q bucket object (reads (trace s)) (remote s)
  end.

Lemma upload_inv_start Q (st : Store) key w ops : upload_inv Q st key (start st key w ops).
Proof. apply put_run_nil. Qed.

Lemma upload_inv_step Q (st : Store) key t (s s' : sys) :
  put_ensures Q → task_inv s →
  upload_inv Q st key s → step t s = Some s' → upload_inv Q st key s'.
Proof.
  intros Hcontract [_ Ht] Hu Hstep. unfold upload_inv in *. destruct t.
  - step_inv Hstep; trace_simpl; done.
  - unfold step, task_step in Hstep. destruct (task s) as [c|r|r|] eqn:Htask; [| | |done].
    + destruct (put_next c (remote s)) as [n|err w'] eqn:Hnext.
      * destruct (Pipe.read n (pw (blob s))) as [[[data err] p]|] eqn:Hread; [|done].
        simplify_eq/=. trace_simpl.
        eapply put_run_read; eauto using Pipe_read_length.
      * simplify_eq/=. destruct Ht as (Hp & _). unfold put_returns in *.
        rewrite omap_app, Hp. simpl. intros ?; simplify_eq.
        unfold reads. rewrite omap_app. simpl. rewrite app_nil_r.
        eapply Hcontract; eauto.
    + simplify_eq/=. done.
    + destruct (Chan.send r (errCh (blob s))); [|done]. simplify_eq/=.
      unfold put_returns, reads in *. rewrite !omap_app. simpl. by rewrite !app_nil_r.
Qed.

Lemma upload_inv_reachable Q (st : Store) key w ops (s : sys) :
  put_ensures Q → reachable (start st key w ops) s → upload_inv Q st key s.
Proof.
  intros Hc. apply reachable_ind; [apply upload_inv_start|].
  intros t s1 s2 Hr. apply upload_inv_step; [done|]. by eapply task_inv_reachable.
Qed.

(** *** A caller that writes chunks and then commits *)

Lemma reads_app (tr1 tr2 : list event) : reads (tr1 ++ tr2) = reads tr1 ++ reads tr2.
Proof. apply omap_app. Qed.

Lemma fed_app (tr1 tr2 : list event) : fed (tr1 ++ tr2) = fed tr1 ++ fed tr2.
Proof. unfold fed. by rewrite reads_app, fmap_app, concat_app. Qed.

Lemma fed_read data err : fed [ERead data err] = data.
Proof. unfold fed. simpl. apply app_nil_r. Qed.

Definition no_read_error (tr : list event) : Prop :=
  Forall (λ r, r.2 = None) (reads tr).

Lemma no_read_error_app (tr1 tr2 : list event) :
  no_read_error (tr1 ++ tr2) ↔ no_read_error tr1 ∧ no_read_error tr2.
Proof. unfold no_read_error. rewrite reads_app. apply Forall_app. Qed.

Lemma step_rerr_open t (s s' : sys) :
  step t s = Some s' → Pipe.rerr (pw (blob s')) = None → Pipe.rerr (pw (blob s)) = None.
Proof.
  intros Hstep. destruct t; step_inv Hstep. destruct (Pipe.rerr _); done.
Qed.

(** The caller whose calls are [Write] of each chunk of [cs] and then
    [Sync]: as long as the read end of the pipe is open, the bytes fed to
    [PutObject] and the rest of the slice being written make up the chunks
    handed to [Write] so far, and after [Sync] began they are all of [cs]. *)
Definition write_inv (cs : list (list byte)) (s : sys) : Prop :=
  let p := pw (blob s) in
  Pipe.rerr p = None →
  match caller s with
  | Ready =>
      (∃ cs1 cs2, cs = cs1 ++ cs2 ∧ prog s = (OpWrite <$> cs2) ++ [OpSync] ∧
                  fed (trace s) = concat cs1 ∧ Pipe.werr p = None ∧
                  no_read_error (trace s)) ∨
      (prog s = [] ∧ fed (trace s) = concat cs ∧ Pipe.werr p = Some EOF)
  | InWrite =>
      ∃ cs1 c cs2 wtr,
        cs = cs1 ++ c :: cs2 ∧ prog s = (OpWrite <$> cs2) ++ [OpSync] ∧
        Pipe.wr p = Some wtr ∧ fed (trace s) ++ Pipe.wb wtr = concat cs1 ++ c ∧
        Pipe.werr p = None ∧ no_read_error (trace s)
  | InSync => prog s = [] ∧ fed (trace s) = concat cs ∧ Pipe.werr p = Some EOF
  | Panicked _ => False
  end.

Lemma write_inv_start (st : Store) key w cs :
  write_inv cs (start st key w ((OpWrite <$> cs) ++ [OpSync])).
Proof.
  intros _. left. exists [], cs. split_and!; try done. apply Forall_nil_2.
Qed.

Lemma write_inv_caller_step cs (s s' : sys) :
  handle_inv s → write_inv cs s → step Caller s = Some s' → write_inv cs s'.
Proof.
  intros [Hc Hd] Hw Hstep Hre.
  pose proof (step_rerr_open _ _ _ Hstep Hre) as Hre0. specialize (Hw Hre0).
  simpl in Hstep. unfold caller_step in Hstep.
  destruct (caller s) eqn:Hcal; [| | |done].
  - destruct Hw as [(cs1 & cs2 & -> & Hprog & Hfed & Hwerr & Hne)|(Hprog & _)];
      [|by rewrite Hprog in Hstep].
    rewrite Hprog in Hstep. rewrite Hwerr in Hd.
    destruct (didSync (blob s)) eqn:Hsync; [by destruct Hd as [[?|?] _]|].
    destruct cs2 as [|c cs2]; simpl in Hstep.
    + unfold Sync_begin in Hstep. rewrite Hsync in Hstep. simplify_eq/=.
      rewrite fed_app, app_nil_r, Hwerr. simpl. by rewrite app_nil_r.
    + unfold Write_begin, Pipe.write_begin in Hstep.
      assert (Pipe.done (pw (blob s)) = false) as Hdone by by apply Pipe_done_false.
      rewrite Hdone in Hstep. simplify_eq/=. exists cs1, c, cs2, (Pipe.mkWriter c 0 true).
      rewrite fed_app, app_nil_r, Hfed. split_and!; try done.
      apply no_read_error_app. split; [done|apply Forall_nil_2].
  - destruct Hw as (cs1 & c & cs2 & wtr & -> & Hprog & Hwr & Hfed & Hwerr & Hne).
    unfold Write_poll, Pipe.write_poll in Hstep. rewrite Hwr in Hstep.
    assert (Pipe.done (pw (blob s)) = false) as Hdone by by apply Pipe_done_false.
    rewrite Hdone in Hstep.
    destruct (Pipe.offering wtr) eqn:Hoff; [done|]. simplify_eq/=.
    left. exists (cs1 ++ [c]), cs2. rewrite <- app_assoc. split_and!; try done.
    + unfold Pipe.offering in Hoff. apply orb_false_iff in Hoff as [_ Hlen].
      apply bool_decide_eq_false in Hlen.
      destruct (Pipe.wb wtr); [|simpl in Hlen; lia].
      rewrite fed_app, !app_nil_r in *. by rewrite concat_app, Hfed; simpl; rewrite app_nil_r.
    + apply no_read_error_app. split; [done|apply Forall_nil_2].
  - destruct Hw as (Hprog & Hfed & Hwerr).
    unfold Sync_recv in Hstep. destruct (Chan.recv _) as [[v ch]|]; [|done].
    simplify_eq/=. right. by rewrite fed_app, app_nil_r.
Qed.

Lemma write_inv_task_step cs (s s' : sys) :
  handle_inv s → write_inv cs s → step Task s = Some s' → write_inv cs s'.
Proof.
  intros [Hc Hd] Hw Hstep Hre.
  pose proof (step_rerr_open _ _ _ Hstep Hre) as Hre0. specialize (Hw Hre0).
  simpl in Hstep. unfold task_step in Hstep.
  destruct (task s) as [c|r|r|] eqn:Htask; [| | |done].
  - destruct (put_next c (remote s)) as [n|err w']; simplify_eq/=.
    2:{ rewrite fed_app, app_nil_r. destruct (caller s); try done.
        - destruct Hw as [(cs1 & cs2 & ? & ? & ? & ? & ?)|?]; [left|by right].
          exists cs1, cs2. split_and!; try done.
          apply no_read_error_app. split; [done|apply Forall_nil_2].
        - destruct Hw as (cs1 & c' & cs2 & wtr & ? & ? & ? & ? & ? & ?).
          exists cs1, c', cs2, wtr. split_and!; try done.
          apply no_read_error_app. split; [done|apply Forall_nil_2]. }
    unfold Pipe.read in Hstep.
    destruct (Pipe.done (pw (blob s))) eqn:Hdone.
    + simplify_eq/=. rewrite fed_app, fed_read, app_nil_r.
      apply Pipe_done_true in Hdone as [Hdone|Hdone];
        [|by rewrite Hre0 in Hdone; destruct Hdone].
      destruct (caller s); try done.
      * destruct Hw as [(cs1 & cs2 & ? & ? & ? & Hwerr & ?)|?]; [|by right].
        rewrite Hwerr in Hdone. by destruct Hdone.
      * destruct Hw as (cs1 & c' & cs2 & wtr & ? & ? & ? & ? & Hwerr & ?).
        rewrite Hwerr in Hdone. by destruct Hdone.
    + apply Pipe_done_false in Hdone as [Hwerr _].
      destruct (Pipe.wr (pw (blob s))) as [wtr|] eqn:Hwr; [|done].
      destruct (Pipe.offering wtr); [|done]. simplify_eq/=.
      destruct (caller s); try done; try by destruct Hc.
      destruct Hw as (cs1 & c' & cs2 & wtr' & -> & ? & ? & Hfed & _ & Hne). simplify_eq.
      eexists cs1, c', cs2, _. split_and!; try done; simpl.
      * by rewrite fed_app, fed_read, <- app_assoc, take_drop.
      * apply no_read_error_app. split; [done|]. by repeat constructor.
  - simplify_eq/=. destruct r as [e|]; [simpl in Hre; by destruct (Pipe.rerr _)|done].
  - destruct (Chan.send r (errCh (blob s))); [|done]. simplify_eq/=.
    rewrite fed_app, app_nil_r. destruct (caller s); try done.
    + destruct Hw as [(cs1 & cs2 & ? & ? & ? & ? & ?)|?]; [left|by right].
      exists cs1, cs2. split_and!; try done.
      apply no_read_error_app. split; [done|apply Forall_nil_2].
    + destruct Hw as (cs1 & c' & cs2 & wtr & ? & ? & ? & ? & ? & ?).
      exists cs1, c', cs2, wtr. split_and!; try done.
      apply no_read_error_app. split; [done|apply Forall_nil_2].
Qed.

Lemma write_inv_reachable (st : Store) key w cs (s : sys) :
  reachable (start st key w ((OpWrite <$> cs) ++ [OpSync])) s → write_inv cs s.
Proof.
  apply reachable_ind; [apply write_inv_start|].
  intros [] s1 s2 Hr; [apply write_inv_caller_step|apply write_inv_task_step];
    by eapply handle_inv_reachable.
Qed.
(** C1: with a client that keeps the contract, let a caller create a handle
    for [key], write the chunks [cs] of [B] (any number of chunks, empty
    ones and none at all included) and call [Sync].  Whatever the schedule,
    if [Sync] returned nil then [Open] of the same key yields an object whose
    bytes are exactly [B]. *)
Theorem create_write_sync_open (st : Store) (key : string) (w : World)
    (B : list byte) (cs : list (list byte)) (sched : list thread) (s : sys) :
  put_get_contract →
  concat cs = B →
  exec sched (start st key w ((OpWrite <$> cs) ++ [OpSync])) = Some s →
  None ∈ sync_returns (trace s) →
  ∃ obj, ReadAll obj = B ∧
         ∀ effs, (Open st key {| world := remote s; effects := effs |}).1 = inl obj.
Proof.
  intros Hcontract <- Hexec Hsync.
  assert (reachable (start st key w ((OpWrite <$> cs) ++ [OpSync])) s) as Hr
    by by exists sched.
  pose proof (task_inv_reachable _ _ _ _ _ Hr) as Hti.
  destruct (task_inv_sync_returned _ _ Hti Hsync) as (_ & Hput & Hre).
  destruct Hti as [_ Ht].
  pose proof (upload_inv_reachable _ _ _ _ _ _ Hcontract Hr) as Hu.
  pose proof (write_inv_reachable _ _ _ _ _ Hr Hre) as Hw.
  unfold upload_inv in Hu.
  destruct (task s) as [c| | |] eqn:Htask;
    [by destruct Ht as (Hp & _); rewrite Hp in Hput|..].
  all: destruct (Hu Hput) as ((d & Heof) & obj & w' & Hget & Hall).
  all: exists obj; split;
    [|by intros effs; unfold Open, mbind, M_bind, cl_GetObject; simpl; rewrite Hget].
  all: rewrite Hall; fold (fed (trace s)).
  all: assert (¬ no_read_error (trace s)) as Hne
      by (intros Hne; eapply Forall_forall in Hne; [|exact Heof]; done).
  all: destruct (caller s); try done.
  all: try (destruct Hw as [(? & ? & ? & ? & ? & ? & ?)|(? & ? & ?)]; done).
  all: try (destruct Hw as (? & ? & ? & ? & ? & ? & ? & ? & ? & ?); done).
  all: by destruct Hw as (? & ? & ?).
Qed.
(** *** Back-pressure and order *)

Lemma take_add_drop {A} (l : list A) n m :
  take (n + m) l = take n l ++ take m (drop n l).
Proof.
  revert l. induction n as [|n IH]; intros [|x l]; simpl; try done.
  - by rewrite take_nil.
  - by rewrite IH.
Qed.

Definition write_ok (r : write_record) : Prop :=
  r.1.2 ≤ length r.1.1 ∧ (r.2 = None → r.1.2 = length r.1.1).

(** Every byte a [Write] reported as written was read by [PutObject], in
    the order of the calls, and nothing else was: the pipe holds no bytes
    of its own. *)
Definition order_inv (s : sys) : Prop :=
  Forall write_ok (writes (trace s)) ∧
  match Pipe.wr (pw (blob s)) with
  | Some wtr =>
      caller s = InWrite ∧
      ∃ p, writing (trace s) = Some p ∧ Pipe.wn wtr ≤ length p ∧
           Pipe.wb wtr = drop (Pipe.wn wtr) p ∧
           fed (trace s) = delivered (writes (trace s)) ++ take (Pipe.wn wtr) p
  | None =>
      caller s ≠ InWrite ∧ writing (trace s) = None ∧
      fed (trace s) = delivered (writes (trace s))
  end.

Lemma writes_snoc tr ev :
  writes (tr ++ [ev]) = (track (fold_left track tr ([], None)) ev).1.
Proof. unfold writes. by rewrite fold_left_app. Qed.

Lemma writing_snoc tr ev :
  writing (tr ++ [ev]) = (track (fold_left track tr ([], None)) ev).2.
Proof. unfold writing. by rewrite fold_left_app. Qed.

Lemma delivered_snoc ws r : delivered (ws ++ [r]) = delivered ws ++ take r.1.2 r.1.1.
Proof. unfold delivered. rewrite fmap_app, concat_app. simpl. by rewrite app_nil_r. Qed.

Lemma order_inv_start (st : Store) key w ops : order_inv (start st key w ops).
Proof. split; [apply Forall_nil_2|]. simpl. done. Qed.

Lemma order_inv_step t (s s' : sys) :
  order_inv s → step t s = Some s' → order_inv s'.
Proof.
  intros [Hok Hw] Hstep. unfold order_inv.
  destruct t; step_inv Hstep; done_facts.
  all: rewrite ?fed_app, ?fed_read; unfold writes, writing in *;
    rewrite ?fold_left_app; simpl.
  all: fold (writes (trace s)) in *; fold (writing (trace s)) in *.
  all: rewrite ?app_nil_r.
  all: try (destruct Hw as (Hcal & p & Hp & Hn & Hb & Hfed)).
  all: try (destruct Hw as (Hcal & Hp & Hfed)).
  all: try congruence.
  all: try done.
  - split_and!; try done; [|by rewrite delivered_snoc, app_nil_r].
    apply Forall_app. split; [done|]. apply Forall_singleton. split; simpl; [lia|done].
  - split_and!; try done. exists p. split_and!; try done; [lia|]. by rewrite app_nil_r.
  - rewrite Hp. simpl. split_and!; try done; [|by rewrite delivered_snoc].
    apply Forall_app. split; [done|]. apply Forall_singleton. split; simpl; [lia|done].
  - rewrite Hp. simpl. split_and!; try done; [|by rewrite delivered_snoc].
    apply Forall_app. split; [done|]. apply Forall_singleton. split; simpl; [lia|].
    intros _. unfold Pipe.offering in *.
    match goal with H : _ || _ = false |- _ => apply orb_false_iff in H as [_ Hlen] end.
    apply bool_decide_eq_false in Hlen. rewrite Hb, length_drop in Hlen. lia.
  - eauto 10.
  - split_and!; try done. exists p. split_and!; try done.
    + rewrite Hb, length_drop. lia.
    + rewrite Hb, drop_drop. done.
    + rewrite Hfed, <- app_assoc, take_add_drop, Hb. done.
  - eauto 10.
  - eauto 10.
Qed.

Lemma order_inv_reachable (st : Store) key w ops (s : sys) :
  reachable (start st key w ops) s → order_inv s.
Proof.
  apply reachable_ind; [apply order_inv_start|].
  intros t s1 s2 _. apply order_inv_step.
Qed.
(** *** Progress of a blocked Write *)

(** A [Read] returns an error only from a pipe that is done, and a pipe
    that is done stays so. *)
Definition done_inv (s : sys) : Prop :=
  Pipe.done (pw (blob s)) = false → no_read_error (trace s).

Lemma done_inv_step t (s s' : sys) : done_inv s → step t s = Some s' → done_inv s'.
Proof.
  unfold done_inv. intros Hinv Hstep Hd'. apply Pipe_done_false in Hd' as [Hw' Hr'].
  rewrite Pipe_done_false in Hinv.
  destruct t; step_inv Hstep; done_facts; simpl in *.
  all: try (apply no_read_error_app; split; [|by repeat constructor]).
  all: try (apply Hinv; split; try done).
  all: try (by destruct (Pipe.werr _)).
  all: try (by destruct (Pipe.rerr _)).
  all: try (match goal with H : is_Some _ ∨ is_Some _ |- _ =>
              rewrite Hw', Hr' in H; by destruct H as [[]|[]] end).
Qed.

Lemma done_inv_reachable (st : Store) key w ops (s : sys) :
  reachable (start st key w ops) s → done_inv s.
Proof.
  apply reachable_ind; [intros _; apply Forall_nil_2|].
  intros t s1 s2 _. apply done_inv_step.
Qed.

Lemma exec_tasks_then_caller m (s s1 : sys) :
  step Task s = Some s1 →
  exec (replicate (S m) Task ++ [Caller]) s = exec (replicate m Task ++ [Caller]) s1.
Proof. intros H. simpl in *. by rewrite H. Qed.

Section Progress.
Context (st : Store) (key : string) (w0 : World) (ops : list op).
Hypothesis Heof : put_eof_before_success.
Hypothesis Hnonempty : put_reads_nonempty.

Let s0 := start st key w0 ops.

(** A writer that is not blocked returns at its next step. *)
Lemma write_returns_when_ready (s : sys) wtr :
  caller s = InWrite → Pipe.wr (pw (blob s)) = Some wtr →
  Pipe.offering wtr = false ∨ Pipe.done (pw (blob s)) = true →
  ∃ s', exec [Caller] s = Some s' ∧ caller s' = Ready.
Proof.
  intros Hcal Hwr Hready. simpl. unfold caller_step, Write_poll, Pipe.write_poll.
  rewrite Hcal, Hwr.
  destruct (Pipe.offering wtr) eqn:Hoff.
  - destruct Hready as [?| ->]; [done|]. eauto.
  - eauto.
Qed.

(** In a reachable state whose writer is blocked, the upload has not
    reported success. *)
Lemma blocked_write_no_success (s : sys) :
  reachable s0 s → Pipe.done (pw (blob s)) = false →
  put_returns (trace s) ≠ [None].
Proof using Heof.
  intros Hr Hdone Hput.
  pose proof (task_inv_reachable _ _ _ _ _ Hr) as [_ Ht].
  pose proof (upload_inv_reachable _ _ _ _ _ _ Heof Hr) as Hu.
  pose proof (done_inv_reachable _ _ _ _ _ Hr Hdone) as Hne.
  unfold upload_inv in Hu.
  destruct (task s) eqn:Htask; [by destruct Ht as (Hp & _); rewrite Hp in Hput|..].
  all: destruct (Hu Hput) as (d & Hd); eapply Forall_forall in Hne; [|exact Hd]; done.
Qed.

(** A blocked [Write] with [k] bytes left returns after at most [k + 2]
    steps of the upload. *)
Lemma write_completes (k : nat) (s : sys) wtr :
  reachable s0 s → caller s = InWrite → Pipe.wr (pw (blob s)) = Some wtr →
  length (Pipe.wb wtr) ≤ k →
  ∃ m s', m ≤ k + 2 ∧ exec (replicate m Task ++ [Caller]) s = Some s' ∧ caller s' = Ready.
Proof using Heof Hnonempty.
  revert s wtr. induction k as [k IH] using lt_wf_ind. intros s wtr Hr Hcal Hwr Hlen.
  assert (∀ s1 wtr1, caller s1 = InWrite → Pipe.wr (pw (blob s1)) = Some wtr1 →
            Pipe.offering wtr1 = false ∨ Pipe.done (pw (blob s1)) = true →
            ∃ s', exec (replicate 0 Task ++ [Caller]) s1 = Some s' ∧ caller s' = Ready)
    as Hready by (intros; by eapply write_returns_when_ready).
  destruct (Pipe.offering wtr) eqn:Hoff;
    [|destruct (Hready s wtr) as (s' & ? & ?); eauto; exists 0, s'; split; [lia|done]].
  destruct (Pipe.done (pw (blob s))) eqn:Hdone;
    [destruct (Hready s wtr) as (s' & ? & ?); eauto; exists 0, s'; split; [lia|done]|].
  pose proof (task_inv_reachable _ _ _ _ _ Hr) as [_ Ht].
  pose proof (blocked_write_no_success s Hr Hdone) as Hnosucc.
  pose proof Hdone as Hdone'. apply Pipe_done_false in Hdone' as [Hwerr Hrerr].
  destruct (task s) as [c|r|r|] eqn:Htask.
  - destruct (put_next c (remote s)) as [n|err w'] eqn:Hnext.
    + pose proof (Hnonempty _ _ _ Hnext) as Hn.
      set (nr := n `min` length (Pipe.wb wtr)).
      set (wtr1 := Pipe.mkWriter (drop nr (Pipe.wb wtr)) (Pipe.wn wtr + nr) false).
      set (s1 := {| remote := remote s;
                    blob := with_pipe (blob s)
                              {| Pipe.wr := Some wtr1; Pipe.werr := Pipe.werr (pw (blob s));
                                 Pipe.rerr := Pipe.rerr (pw (blob s)) |};
                    prog := prog s; caller := caller s;
                    task := TPutObject (put_resume c (take nr (Pipe.wb wtr)) None);
                    trace := trace s ++ [ERead (take nr (Pipe.wb wtr)) None] |}).
      assert (step Task s = Some s1) as Hstep.
      { simpl. unfold task_step, Pipe.read. by rewrite Htask, Hnext, Hdone, Hwr, Hoff. }
      pose proof (reachable_step _ _ _ _ Hr Hstep) as Hr1.
      destruct (Pipe.wb wtr) as [|b bs] eqn:Hwb.
      * destruct (Hready s1 wtr1) as (s' & Hex & ?); [done|done| |].
        { left. subst wtr1. unfold Pipe.offering. simpl. by rewrite drop_nil. }
        exists 1, s'. split; [lia|]. by rewrite (exec_tasks_then_caller 0 _ _ Hstep).
      * simpl in Hlen. destruct k as [|k]; [lia|].
        destruct (IH k (Nat.lt_succ_diag_r k) s1 wtr1) as (m & s' & Hm & Hex & ?); try done.
        { subst wtr1 nr. simpl. rewrite length_drop. simpl. lia. }
        exists (S m), s'. split; [lia|]. by rewrite (exec_tasks_then_caller m _ _ Hstep).
    + set (s1 := {| remote := w'; blob := blob s; prog := prog s; caller := caller s;
                    task := TReturned err; trace := trace s ++ [EPutReturn err] |}).
      assert (step Task s = Some s1) as Hstep.
      { simpl. unfold task_step. by rewrite Htask, Hnext. }
      pose proof (reachable_step _ _ _ _ Hr Hstep) as Hr1.
      destruct err as [e|].
      2:{ exfalso. apply (blocked_write_no_success s1 Hr1 Hdone).
          destruct Ht as (Hp & _). subst s1. simpl. unfold put_returns in *.
          by rewrite omap_app, Hp. }
      set (p2 := Pipe.closeRead (Some (ErrorfW "s3 PutObject: " e)) (pw (blob s))).
      set (s2 := {| remote := w'; blob := with_pipe (blob s) p2; prog := prog s;
                    caller := caller s; task := TSend (Some e);
                    trace := trace s ++ [EPutReturn (Some e)] |}).
      assert (step Task s1 = Some s2) as Hstep2 by done.
      destruct (Hready s2 wtr) as (s' & Hex & ?); [done..| |].
      { right. apply Pipe_done_true. right. subst s2 p2. simpl. by rewrite Hrerr. }
      exists 2, s'. split; [lia|].
      by rewrite (exec_tasks_then_caller 1 _ _ Hstep), (exec_tasks_then_caller 0 _ _ Hstep2).
  - destruct Ht as (Hp & _). destruct r as [e|]; [|done].
    set (p1 := Pipe.closeRead (Some (ErrorfW "s3 PutObject: " e)) (pw (blob s))).
    set (s1 := {| remote := remote s; blob := with_pipe (blob s) p1; prog := prog s;
                  caller := caller s; task := TSend (Some e); trace := trace s |}).
    assert (step Task s = Some s1) as Hstep.
    { simpl. unfold task_step. by rewrite Htask. }
    destruct (Hready s1 wtr) as (s' & Hex & ?); [done..| |].
    { right. apply Pipe_done_true. right. subst s1 p1. simpl. by rewrite Hrerr. }
    exists 1, s'. split; [lia|]. by rewrite (exec_tasks_then_caller 0 _ _ Hstep).
  - destruct Ht as (Hp & _ & _ & _ & Hre). rewrite Hrerr in Hre.
    destruct r; [done|]. done.
  - destruct Ht as (r & Hp & _ & Hre & _). rewrite Hrerr in Hre.
    destruct r; [done|]. done.
Qed.
End Progress.

(** C9: with a client whose [PutObject] reports success only after
    [io.EOF] and never reads into an empty buffer.  A [Write] that returned
    nil reported all of its slice, and no [Write] reported more than its
    slice; the bytes fed to [PutObject] are, in order, exactly the bytes the
    [Write] calls reported, plus the part of the slice in progress that was
    already taken: nothing is held in between, and the writer is never ahead
    of the upload.  A [Write] in progress with [k] bytes left returns after
    at most [k + 2] further steps of the upload, whatever the size of the
    slice. *)
Theorem Write_blocks_until_read (st : Store) (key : string) (w : World)
    (ops : list op) (s : sys) :
  put_eof_before_success →
  put_reads_nonempty →
  reachable (start st key w ops) s →
  Forall write_ok (writes (trace s)) ∧
  match Pipe.wr (pw (blob s)) with
  | Some wtr =>
      (∃ p, writing (trace s) = Some p ∧
            Pipe.wb wtr = drop (Pipe.wn wtr) p ∧
            fed (trace s) = delivered (writes (trace s)) ++ take (Pipe.wn wtr) p) ∧
      ∃ m s', m ≤ length (Pipe.wb wtr) + 2 ∧
              exec (replicate m Task ++ [Caller]) s = Some s' ∧ caller s' = Ready
  | None => fed (trace s) = delivered (writes (trace s))
  end.
Proof.
  intros Heof Hnonempty Hr.
  destruct (order_inv_reachable _ _ _ _ _ Hr) as [Hok Hw]. split; [done|].
  destruct (Pipe.wr (pw (blob s))) as [wtr|] eqn:Hwr; [|by destruct Hw as (_ & _ & ?)].
  destruct Hw as (Hcal & p & Hp & Hn & Hb & Hfed). split; [eauto|].
  by eapply write_completes.
Qed.

Lemma put_get_contract_eof : put_get_contract → put_eof_before_success.
Proof.
  intros Hc bucket object w rs c w' Hrun Hnext.
  by destruct (Hc bucket object w rs c w' Hrun Hnext).
Qed.
End Protocol.
(** * The in-memory client keeps the contract; runs of the protocol *)

Section MemClient.
#[local] Existing Instance Mem.client.

Lemma Mem_put_run bucket object (w : Mem.service) rs (c : Mem.put_call) :
  put_run w (Mem.put bucket object) rs c →
  Mem.pbucket c = bucket ∧ Mem.pobject c = object ∧ Mem.pbuf c = concat rs.*1 ∧
  match Mem.pstatus c with
  | Mem.Reading => True
  | Mem.SawEOF => ∃ d, (d, Some EOF) ∈ rs
  | Mem.Failed _ => True
  end.
Proof.
  induction 1 as [|rs c n data err Hrun (Hb & Ho & Hbuf & Hst) Hnext Hlen].
  - simpl. done.
  - simpl in Hnext. unfold Mem.next in Hnext.
    destruct (bool_decide _); [done|].
    destruct (Mem.pstatus c) eqn:Hstatus; [|done..].
    unfold put_resume. simpl. rewrite Hstatus, Hbuf, fmap_app, concat_app. simpl.
    rewrite app_nil_r. split_and!; try done.
    destruct err as [[]|]; try done.
    exists data. apply elem_of_app. right. by apply list_elem_of_singleton.
Qed.

Lemma Mem_put_get_contract : put_get_contract.
Proof.
  intros bucket object w rs c w' Hrun Hnext.
  destruct (Mem_put_run _ _ _ _ _ Hrun) as (Hb & Ho & Hbuf & Hst).
  simpl in Hnext. unfold Mem.next in Hnext.
  destruct (bool_decide (Mem.pobject c ∈ Mem.denied w)) eqn:Hden; [done|].
  destruct (Mem.pstatus c); [done| |done]. simplify_eq/=.
  split; [done|]. eexists _, _. unfold Mem.get, Mem.lookup. simpl. rewrite Hden.
  rewrite filter_cons_True by done. done.
Qed.

Lemma Mem_put_reads_nonempty : put_reads_nonempty.
Proof.
  intros c w n. simpl. unfold Mem.next.
  destruct (bool_decide _); [done|]. destruct (Mem.pstatus c); [|done..].
  intros ?; simplify_eq. lia.
Qed.

End MemClient.

(** * Runs of the protocol against the in-memory client *)

Section Runs.
#[local] Existing Instance Mem.client.

Definition hello : list byte := [x68; x65; x6c; x6c; x6f].
Definition world_ : list byte := [x2c; x20; x77; x6f; x72; x6c; x64].

(** A service that refuses every request for the object of key "k". *)
Definition refusing : Mem.service := {| Mem.objects := []; Mem.denied := ["blobs/k"] |}.

(** The system after [Create] of key "k" on the service [w]. *)
Definition run (w : Mem.service) (ops : list op) (sched : list thread) : option sys :=
  exec (cl := Mem.client) sched (start (cl := Mem.client) Mem.store "k" w ops).

Lemma create_write_sync_open_witness :
  let sched := [Caller; Task; Task; Caller; Caller; Task; Task; Caller; Caller;
                Task; Task; Task; Task; Caller] in
  ∃ s, run Mem.empty ((OpWrite <$> [hello; world_]) ++ [OpSync]) sched = Some s ∧
       ∃ obj, ReadAll obj = hello ++ world_ ∧
              ∀ effs, (Open Mem.store "k" {| world := remote s; effects := effs |}).1
                      = inl obj.
Proof.
  intros sched. eexists. split; [vm_compute; reflexivity|].
  eapply (create_write_sync_open (cl := Mem.client) Mem.store "k" Mem.empty
            (hello ++ world_) [hello; world_] sched).
  - exact Mem_put_get_contract.
  - reflexivity.
  - vm_compute. reflexivity.
  - vm_compute. apply list_elem_of_here.
Defined.

(** An object of no bytes: [Sync] right after [Create], and [Open] yields
    the empty sequence. *)
Example empty_object_roundtrip :
  ∃ s, run Mem.empty [OpSync] [Caller; Task; Task; Task; Task; Caller] = Some s ∧
       sync_returns (trace s) = [None] ∧
       (Open Mem.store "k" {| world := remote s; effects := [] |}).1 = inl [].
Proof. eexists. split_and!; vm_compute; reflexivity. Qed.

(** C3, as stated, fails: when the service refuses the upload, [Sync]
    returns the error of [PutObject] itself, which wraps nothing. *)
Lemma Sync_error_is_not_wrapped :
  ∃ s, run refusing [OpSync] [Task; Task; Task; Caller; Caller] = Some s ∧
       put_returns (trace s) = [Some Mem.AccessDenied] ∧
       sync_returns (trace s) = [Some Mem.AccessDenied] ∧
       Unwrap Mem.AccessDenied = None ∧
       Error Mem.AccessDenied = Some "Access Denied." ∧
       ¬ ∃ e prefix, sync_returns (trace s) = [Some e] ∧
                     e = ErrorfW prefix Mem.AccessDenied.
Proof.
  eexists. split; [vm_compute; reflexivity|].
  split_and!; try (vm_compute; reflexivity).
  intros (e & prefix & Hs & ->). vm_compute in Hs. discriminate.
Qed.

Lemma Sync_returns_posted_value_witness :
  ∃ s, run refusing [OpSync] [Caller; Task; Task; Task; Caller] = Some s ∧
       sends (trace s) = [Some Mem.AccessDenied] ∧
       put_returns (trace s) = [Some Mem.AccessDenied] ∧
       Pipe.rerr (pw (blob s)) = Some (ErrorfW "s3 PutObject: " Mem.AccessDenied).
Proof.
  eexists. split; [vm_compute; reflexivity|].
  eapply (Sync_returns_posted_value (cl := Mem.client) Mem.store "k" refusing [OpSync]).
  - exists [Caller; Task; Task; Task; Caller]. vm_compute. reflexivity.
  - vm_compute. apply list_elem_of_here.
Defined.

Lemma Sync_twice_panics_witness :
  ∃ s, run Mem.empty [OpSync; OpSync] [Caller; Task; Task; Task; Task; Caller] = Some s ∧
       sync_returns (trace s) = [None] ∧
       ∃ s', step Caller s = Some s' ∧ caller s' = Panicked syncTwice ∧
             sync_returns (trace s') = [None].
Proof.
  eexists. split; [vm_compute; reflexivity|]. split; [vm_compute; reflexivity|].
  eexists. split.
  - eapply (Sync_twice_panics (cl := Mem.client) Mem.store "k" Mem.empty [OpSync; OpSync]).
    + exists [Caller; Task; Task; Task; Task; Caller]. vm_compute. reflexivity.
    + vm_compute. lia.
    + reflexivity.
    + reflexivity.
  - split; vm_compute; reflexivity.
Defined.


(** C6, as stated, fails on the text of the error: the message of the
    error the pipe is closed with is not "handle closed without commit". *)
Lemma Close_message_differs :
  let b := (Create (cl := Mem.client) Mem.store "k").1 in
  ∃ e, Pipe.werr (pw (Close b).2) = Some e ∧
       Error e = Some "storage.blob.s3: blob closed without Sync" ∧
       Error e ≠ Some "handle closed without commit".
Proof. exists closedWithoutSync. by split_and!. Qed.

Lemma Write_blocks_until_read_witness :
  ∃ s, run Mem.empty [OpWrite (hello ++ world_); OpSync] [Caller; Task] = Some s ∧
       fed (trace s) = take 4 (hello ++ world_) ∧
       ∃ m s', m ≤ 10 ∧ exec (replicate m Task ++ [Caller]) s = Some s' ∧
               caller s' = Ready.
Proof.
  eexists. split; [vm_compute; reflexivity|]. split; [vm_compute; reflexivity|].
  match goal with |- ∃ m s', _ ∧ exec _ ?s = _ ∧ _ =>
    assert (reachable (start (cl := Mem.client) Mem.store "k" Mem.empty
                         [OpWrite (hello ++ world_); OpSync]) s) as Hr
      by (exists [Caller; Task]; vm_compute; reflexivity)
  end.
  pose proof (Write_blocks_until_read _ _ _ _ _
                (put_get_contract_eof Mem_put_get_contract) Mem_put_reads_nonempty Hr)
    as [_ Hw].
  cbn [blob pw Pipe.wr] in Hw. destruct Hw as [_ (m & s' & Hm & Hex & Hc)].
  exists m, s'. split_and!; [exact Hm|exact Hex|exact Hc].
Defined.

End Runs.

(** * Further properties of the package *)

(** ** Delete over lists of keys *)

Section DeleteMore.
Context `{cl : Client}.

Lemma remove_all_app bucket (o1 o2 : list string) (w : World) :
  remove_all bucket (o1 ++ o2) w =
    remove_all bucket o1 w ++ remove_all bucket o2 (remove_all_world bucket o1 w).
Proof.
  revert w. induction o1 as [|o o1 IH]; intros w; simpl; [done|]. by rewrite IH.
Qed.

Lemma remove_all_world_app bucket (o1 o2 : list string) (w : World) :
  remove_all_world bucket (o1 ++ o2) w =
    remove_all_world bucket o2 (remove_all_world bucket o1 w).
Proof.
  revert w. induction o1 as [|o o1 IH]; intros w; simpl; [done|]. by rewrite IH.
Qed.

(** X1: [Delete] of no key calls nothing, logs nothing and returns nil; for
    a list that ends with the key [k], it returns what [RemoveObject]
    answered for [k] on the state the other removals left, whatever
    happened to them. *)
Theorem Delete_result_is_last_removal (s : Store) (e : env) :
  Delete s [] e = (None, e) ∧
  ∀ (ks : list string) (k : string),
    (Delete s (ks ++ [k]) e).1 =
      (RemoveObject (bucketName s) (objectPrefix s +:+ k) (world (Delete s ks e).2)).1.
Proof.
  split.
  - unfold Delete. rewrite Delete_loop_run. simpl. destruct e. by rewrite app_nil_r.
  - intros ks k. unfold Delete. rewrite !Delete_loop_run. simpl.
    rewrite fmap_app, remove_all_app, fmap_app, last_app. simpl. done.
Qed.

(** X2: deleting [ks1 ++ ks2] is deleting [ks1] and then [ks2]: the same
    calls and log lines in the same order and the same remote state; the
    value returned is that of the second [Delete] unless [ks2] is empty. *)
Theorem Delete_app (s : Store) (ks1 ks2 : list string) (e : env) :
  let r1 := Delete s ks1 e in
  let r2 := Delete s ks2 r1.2 in
  (Delete s (ks1 ++ ks2) e).2 = r2.2 ∧
  (Delete s (ks1 ++ ks2) e).1 = match ks2 with [] => r1.1 | _ => r2.1 end.
Proof.
  simpl. unfold Delete. rewrite !Delete_loop_run. simpl.
  rewrite !fmap_app, remove_all_app, remove_all_world_app, bind_app, app_assoc.
  split; [done|].
  rewrite fmap_app, last_app.
  destruct ks2 as [|k ks2]; [done|]. simpl.
  match goal with |- context [last (?x :: ?l)] => by destruct (last (x :: l)) eqn:E;
    [|apply last_None in E] end.
Qed.

End DeleteMore.

(** ** The handle after Close, after Sync and after a failed upload *)

Section HandleMore.
Context `{cl : Client}.

(** The error of the write end, once set, is kept. *)
Lemma step_werr_kept t (s s' : sys) e :
  step t s = Some s' → Pipe.werr (pw (blob s)) = Some e →
  Pipe.werr (pw (blob s')) = Some e.
Proof.
  intros Hstep Hw. destruct t; step_inv Hstep; by rewrite ?Hw.
Qed.

Lemma exec_werr_kept sched (s s' : sys) e :
  exec sched s = Some s' → Pipe.werr (pw (blob s)) = Some e →
  Pipe.werr (pw (blob s')) = Some e.
Proof.
  revert s. induction sched as [|t sched IH]; intros s Hexec Hw; simpl in Hexec.
  - by simplify_eq.
  - destruct (step t s) as [s1|] eqn:Hstep; [|done].
    eapply IH; [done|]. by eapply step_werr_kept.
Qed.

(** Every error a [Read] of the upload returned is the error the write end
    was closed with, and came without data. *)
Definition read_err_inv (s : sys) : Prop :=
  ∀ d e, (d, Some e) ∈ reads (trace s) → d = [] ∧ Pipe.werr (pw (blob s)) = Some e.

Lemma read_err_inv_step t (s s' : sys) :
  task_inv s → read_err_inv s → step t s = Some s' → read_err_inv s'.
Proof.
  intros [_ Ht] Hinv Hstep d e Hin.
  assert (∀ d e, (d, Some e) ∈ reads (trace s) →
                 d = [] ∧ Pipe.werr (pw (blob s')) = Some e) as Hold.
  { intros d' e' Hin'. destruct (Hinv d' e' Hin') as [-> Hw].
    split; [done|]. by eapply step_werr_kept. }
  destruct t; step_inv Hstep; done_facts; rewrite ?reads_app in Hin; simpl in Hin;
    rewrite ?app_nil_r in Hin; try (by apply Hold).
  all: apply elem_of_app in Hin as [Hin|Hin]; [by apply Hold|].
  all: apply list_elem_of_singleton in Hin; simplify_eq.
  destruct Ht as (_ & _ & _ & _ & Hre). unfold Pipe.readCloseError. rewrite Hre.
  match goal with H : is_Some _ ∨ is_Some _ |- _ =>
    destruct H as [[x Hx]|[x Hx]]; [by rewrite Hx|by rewrite Hre in Hx] end.
Qed.

Lemma read_err_inv_reachable (st : Store) key w ops (s : sys) :
  reachable (start st key w ops) s → read_err_inv s.
Proof.
  apply reachable_ind; [by intros d e Hin; apply elem_of_nil in Hin|].
  intros t s1 s2 Hr. apply read_err_inv_step. by eapply task_inv_reachable.
Qed.

(** The flag and the returns of [Sync]. *)
Definition sync_inv (s : sys) : Prop :=
  (didSync (blob s) = false → sync_returns (trace s) = []) ∧
  (caller s = InSync → sync_returns (trace s) = []).

Lemma sync_inv_step t (s s' : sys) :
  handle_inv s → sync_inv s → step t s = Some s' → sync_inv s'.
Proof.
  intros [Hc Hd] [H1 H2] Hstep. unfold sync_inv.
  destruct t; step_inv Hstep; unfold sync_returns in *; rewrite ?omap_app; simpl;
    rewrite ?app_nil_r; destruct_and?; split; intros; first [congruence|by auto].
Qed.

Lemma sync_inv_reachable (st : Store) key w ops (s : sys) :
  reachable (start st key w ops) s → sync_inv s.
Proof.
  apply reachable_ind; [done|].
  intros t s1 s2 Hr. apply sync_inv_step. by eapply handle_inv_reachable.
Qed.


(** The errors of the [Write] calls that returned one: [io.ErrClosedPipe]
    with nothing written, or the wrapped error of a [PutObject] that
    failed. *)
Definition write_err_ok (tr : list event) (r : write_record) : Prop :=
  ∀ e, r.2 = Some e →
       (e = ErrClosedPipe ∧ r.1.2 = 0) ∨
       (∃ pe, Some pe ∈ put_returns tr ∧ e = ErrorfW "s3 PutObject: " pe).

Lemma write_err_ok_app tr tr' r : write_err_ok tr r → write_err_ok (tr ++ tr') r.
Proof.
  intros H e He. destruct (H e He) as [?|(pe & Hin & ->)]; [by left|right].
  exists pe. split; [|done]. unfold put_returns. rewrite omap_app.
  apply elem_of_app. by left.
Qed.

Definition write_err_inv (s : sys) : Prop :=
  Forall (write_err_ok (trace s)) (writes (trace s)).

Lemma write_err_inv_step t (s s' : sys) :
  task_inv s → handle_inv s → write_err_inv s → step t s = Some s' → write_err_inv s'.
Proof.
  intros [_ Ht] [Hc Hd] Hinv Hstep. unfold write_err_inv in *.
  assert (∀ tr', Forall (write_err_ok (trace s ++ tr')) (writes (trace s))) as Hold.
  { intros tr'. eapply Forall_impl; [exact Hinv|]. intros r. apply write_err_ok_app. }
  assert (∀ e, Pipe.rerr (pw (blob s)) = Some e →
               ∃ pe, Some pe ∈ put_returns (trace s) ∧ e = ErrorfW "s3 PutObject: " pe)
    as Hrerr.
  { intros e He. destruct (task s); destruct_and?; try (destruct Ht as (r & Hp & _ & Hre & _));
      try congruence.
    all: match goal with
         | Hp : put_returns _ = [?r], Hre : Pipe.rerr _ = _ <$> ?r |- _ =>
             rewrite Hre in He; destruct r as [pe|]; simplify_eq/=;
             exists pe; rewrite Hp; split; [apply list_elem_of_here|done]
         end. }
  clear Ht.
  assert (∀ pe tr', Some pe ∈ put_returns (trace s) →
                    Some pe ∈ put_returns (trace s ++ tr')) as Hlift.
  { intros pe tr' Hin. unfold put_returns. rewrite omap_app. apply elem_of_app. by left. }
  assert (is_Some (Pipe.werr (pw (blob s))) ∨ is_Some (Pipe.rerr (pw (blob s))) →
     (is_Some (Pipe.werr (pw (blob s))) ∧
      Pipe.writeCloseError (pw (blob s)) = ErrClosedPipe) ∨
     (Pipe.werr (pw (blob s)) = None ∧
      ∃ pe, Some pe ∈ put_returns (trace s) ∧
            Pipe.writeCloseError (pw (blob s)) = ErrorfW "s3 PutObject: " pe))
    as Hwce.
  { intros Hdone. unfold Pipe.writeCloseError.
    destruct (Pipe.werr (pw (blob s))) as [x|] eqn:Hw; [left; eauto|right].
    destruct Hdone as [[? ?]|[e He]]; [done|]. rewrite He.
    destruct (Hrerr e He) as (pe & Hin & ->). eauto. }
  destruct t; unfold step, caller_step, task_step, Write_begin, Write_poll, Sync_begin,
    Sync_recv, Close, with_pipe in Hstep;
    unfold Pipe.write_begin, Pipe.write_poll, Pipe.read, Chan.send, Chan.recv in Hstep;
    repeat (case_match; simplify_eq/=; try done).
  all: unfold writes in *; rewrite ?fold_left_app; simpl;
    fold (writes (trace s)) in *; fold (writing (trace s)) in *.
  all: try (rewrite <- (app_nil_r (trace s)); by apply Hold).
  all: try (by apply Hold).
  all: apply Forall_app; split; [by apply Hold|]; apply Forall_singleton;
    intros e He; simpl in He; simplify_eq; simpl.
  all: match goal with H : Pipe.done _ = true |- _ => apply Pipe_done_true in H;
         destruct (Hwce H) as [[[x Hx] Hw]|(Hw & pe & Hin & Hwe)] end.
  all: try (left; by rewrite Hw).
  all: try (right; exists pe; split; [by apply Hlift|done]).
  all: destruct Hc as [_ Hc]; congruence.
Qed.

Lemma write_err_inv_reachable (st : Store) key w ops (s : sys) :
  reachable (start st key w ops) s → write_err_inv s.
Proof.
  apply reachable_ind; [apply Forall_nil_2|].
  intros t s1 s2 Hr. apply write_err_inv_step.
  - by eapply task_inv_reachable.
  - by eapply handle_inv_reachable.
Qed.


(** X3: a [Write] on a handle whose pipe is closed at either end returns at
    once, having written nothing: with [io.ErrClosedPipe] when the handle
    was committed or closed, and otherwise with the error of the failed
    [PutObject] wrapped as "s3 PutObject: ...". *)
Theorem Write_on_closed_pipe_fails_at_once (st : Store) (key : string) (w : World)
    (ops : list op) (s : sys) (p : list byte) (rest : list op) :
  reachable (start st key w ops) s →
  caller s = Ready → prog s = OpWrite p :: rest →
  Pipe.done (pw (blob s)) = true →
  ∃ err,
    step Caller s =
      Some {| remote := remote s; blob := blob s; prog := rest; caller := Ready;
              task := task s;
              trace := trace s ++ [ECall (OpWrite p); ERet (RetWrite 0 (Some err))] |} ∧
    match Pipe.werr (pw (blob s)) with
    | Some _ => err = ErrClosedPipe
    | None => ∃ e, put_returns (trace s) = [Some e] ∧ err = ErrorfW "s3 PutObject: " e
    end.
Proof.
  intros Hr Hcal Hprog Hdone.
  exists (Pipe.writeCloseError (pw (blob s))). split.
  - simpl. unfold caller_step, Write_begin, Pipe.write_begin.
    by rewrite Hcal, Hprog, Hdone.
  - apply Pipe_done_true in Hdone. unfold Pipe.writeCloseError.
    destruct (Pipe.werr (pw (blob s))) as [x|]; [done|].
    destruct Hdone as [[? ?]|[e He]]; [done|]. rewrite He.
    pose proof (task_inv_reachable _ _ _ _ _ Hr) as [_ Ht].
    destruct (task s); destruct_and?; try (destruct Ht as (r & Hp & _ & Hre & _));
      try congruence.
    all: match goal with
         | Hp : put_returns _ = [?r], Hre : Pipe.rerr _ = _ <$> ?r |- _ =>
             rewrite Hre in He; destruct r as [pe|]; simplify_eq/=; eauto
         end.
Qed.

(** X4: in every run, a [Write] that returned nil wrote its whole slice; a
    [Write] that returned an error returned [io.ErrClosedPipe], having
    written nothing, or the wrapped error of the [PutObject] that failed,
    having written no more than its slice. *)
Theorem Write_results_classified (st : Store) (key : string) (w : World)
    (ops : list op) (s : sys) :
  reachable (start st key w ops) s →
  Forall (λ r : write_record,
            r.1.2 ≤ length r.1.1 ∧
            match r.2 with
            | None => r.1.2 = length r.1.1
            | Some e =>
                (e = ErrClosedPipe ∧ r.1.2 = 0) ∨
                (∃ pe, put_returns (trace s) = [Some pe] ∧
                       e = ErrorfW "s3 PutObject: " pe)
            end)
         (writes (trace s)).
Proof.
  intros Hr.
  destruct (order_inv_reachable _ _ _ _ _ Hr) as [Hok _].
  pose proof (write_err_inv_reachable _ _ _ _ _ Hr) as Herr.
  pose proof (task_inv_reachable _ _ _ _ _ Hr) as [_ Ht].
  apply Forall_forall. intros r Hin.
  eapply Forall_forall in Hok; [|exact Hin]. eapply Forall_forall in Herr; [|exact Hin].
  destruct Hok as [Hle Hnil]. split; [done|].
  destruct (r.2) as [e|] eqn:He; [|by apply Hnil].
  destruct (Herr e He) as [?|(pe & Hpe & ->)]; [by left|right].
  exists pe. split; [|done].
  destruct (task s); destruct_and?; try (destruct Ht as (r' & Hp & _));
    match goal with Hp : put_returns _ = _ |- _ => rewrite Hp in * end;
    [by apply elem_of_nil in Hpe|..];
    by apply list_elem_of_singleton in Hpe as <-.
Qed.

(** X5: every error a [Read] of the upload returned came without data and
    is the error the write end of the pipe was closed with: [io.EOF] if
    [Sync] closed it, the "closed without Sync" error if [Close] did; the
    upload sees [io.EOF] only after a call of [Sync]. *)
Theorem upload_read_errors (st : Store) (key : string) (w : World)
    (ops : list op) (s : sys) (d : list byte) (e : error) :
  reachable (start st key w ops) s →
  (d, Some e) ∈ reads (trace s) →
  d = [] ∧ Pipe.werr (pw (blob s)) = Some e ∧
  (e = EOF ∨ e = closedWithoutSync) ∧
  (e = EOF → didSync (blob s) = true ∧ 0 < sync_calls (trace s)).
Proof.
  intros Hr Hin.
  destruct (read_err_inv_reachable _ _ _ _ _ Hr d e Hin) as [-> Hw].
  destruct (handle_inv_reachable _ _ _ _ _ Hr) as [_ Hd].
  split_and!; [done|done|..]; rewrite Hw in Hd;
    destruct (didSync (blob s)); destruct Hd as [[?|?] ?]; simplify_eq; auto.
  all: intros; done.
Qed.

(** X6: [Close] twice is [Close] once, and the first of [Close] and [Sync]
    decides how the write end of the pipe is closed: once it is closed with
    an error [e], neither a later [Close] nor a later [Sync] replaces [e]. *)
Theorem Close_idempotent (b : s3blob) :
  Close (Close b).2 = Close b ∧
  ∀ e, Pipe.werr (pw b) = Some e →
       Pipe.werr (pw (Close b).2) = Some e ∧
       ∀ b', Sync_begin b = inr b' → Pipe.werr (pw b') = Some e.
Proof.
  unfold Close, Sync_begin. split.
  - destruct b as [[wr werr rerr] [] ch]; simpl; [done|]. by destruct werr.
  - intros e He. destruct (didSync b); simpl; rewrite ?He; simpl.
    + split; [done|]. intros; done.
    + split; [done|]. intros b' ?. simplify_eq/=. by rewrite He.
Qed.

(** X7: with a client whose [PutObject] reports success only after
    [io.EOF]: once [Close] is called on a handle on which [Sync] was not
    called, the upload never reports success and no [Sync], however much
    later, returns nil. *)
Theorem abandoned_handle_never_commits (st : Store) (key : string) (w : World)
    (ops : list op) (s : sys) (rest : list op) (sched : list thread) (s' : sys) :
  put_eof_before_success →
  reachable (start st key w ops) s →
  didSync (blob s) = false → caller s = Ready → prog s = OpClose :: rest →
  exec (Caller :: sched) s = Some s' →
  Pipe.werr (pw (blob s')) = Some closedWithoutSync ∧
  put_returns (trace s') ≠ [None] ∧
  None ∉ sync_returns (trace s').
Proof.
  intros Heof Hr Hsync Hcal Hprog Hexec.
  pose proof (reachable_exec _ _ _ _ Hr Hexec) as Hr'.
  assert (Pipe.werr (pw (blob s')) = Some closedWithoutSync) as Hw'.
  { simpl in Hexec. unfold caller_step, Close in Hexec.
    rewrite Hcal, Hprog, Hsync in Hexec. simpl in Hexec.
    eapply exec_werr_kept; [exact Hexec|]. simpl.
    destruct (handle_inv_reachable _ _ _ _ _ Hr) as [_ Hd]. rewrite Hsync in Hd.
    by destruct Hd as [[->| ->] _]. }
  assert (put_returns (trace s') ≠ [None]) as Hput.
  { intros Hput.
    pose proof (task_inv_reachable _ _ _ _ _ Hr') as [_ Ht].
    pose proof (upload_inv_reachable _ _ _ _ _ _ Heof Hr') as Hu. unfold upload_inv in Hu.
    destruct (task s') eqn:Htask; [by destruct Ht as (Hp & _); rewrite Hp in Hput|..].
    all: destruct (Hu Hput) as (d & Hd).
    all: destruct (read_err_inv_reachable _ _ _ _ _ Hr' d EOF Hd) as [_ Hw].
    all: by rewrite Hw' in Hw. }
  split_and!; [done|done|]. intros Hin.
  pose proof (task_inv_reachable _ _ _ _ _ Hr') as Hti.
  by destruct (task_inv_sync_returned _ _ Hti Hin) as (_ & ? & _).
Qed.

(** X8: once the write end of the pipe is closed, by [Sync] or by [Close],
    the upload goroutine is never blocked before it exits; and a [Sync] that
    waits is never stuck: its receive can proceed or the goroutine can
    move. *)
Theorem closing_unblocks_upload (st : Store) (key : string) (w : World)
    (ops : list op) (s : sys) :
  reachable (start st key w ops) s →
  (is_Some (Pipe.werr (pw (blob s))) → task s ≠ TExit → is_Some (step Task s)) ∧
  (caller s = InSync → is_Some (step Caller s) ∨ is_Some (step Task s)).
Proof.
  intros Hr.
  pose proof (task_inv_reachable _ _ _ _ _ Hr) as [Hcap Ht].
  assert (is_Some (Pipe.werr (pw (blob s))) → task s ≠ TExit → is_Some (step Task s))
    as Hunblock.
  { intros Hw Hexit. simpl. unfold task_step.
    destruct (task s) as [c|r|r|]; [| | |done].
    - destruct (put_next c (remote s)); [|done].
      unfold Pipe.read.
      assert (Pipe.done (pw (blob s)) = true) as -> by (apply Pipe_done_true; by left).
      done.
    - done.
    - unfold Chan.send. destruct Ht as (_ & _ & -> & _). by rewrite Hcap. }
  split; [done|]. intros Hcal.
  destruct (handle_inv_reachable _ _ _ _ _ Hr) as [Hc Hd]. rewrite Hcal in Hc.
  destruct Hc as [_ Hsync]. rewrite Hsync in Hd.
  destruct (sync_inv_reachable _ _ _ _ _ Hr) as [_ Hnone]. specialize (Hnone Hcal).
  assert (task s = TExit ∨ task s ≠ TExit) as [Hexit|Hexit]
    by (destruct (task s); auto).
  - left. rewrite Hexit in Ht. destruct Ht as (r & _ & _ & _ & [[Hb _]|[_ Hy]]);
      [|congruence].
    simpl. unfold caller_step, Sync_recv, Chan.recv. by rewrite Hcal, Hb.
  - right. apply Hunblock; [|done]. by destruct Hd as [[->| ->] _].
Qed.

(** X9: with a client that keeps the contract, and for any calls on the
    handle: if [Sync] returned nil, [Open] of the key yields exactly the
    bytes the [Write] calls reported as written, in the order of the calls;
    every [Write] wrote its whole slice or, called after [Sync], returned
    [io.ErrClosedPipe] having written nothing. *)
Theorem Sync_nil_commits_reported_bytes (st : Store) (key : string) (w : World)
    (ops : list op) (s : sys) :
  put_get_contract →
  reachable (start st key w ops) s →
  None ∈ sync_returns (trace s) →
  (∃ obj, ReadAll obj = delivered (writes (trace s)) ∧
          ∀ effs, (Open st key {| world := remote s; effects := effs |}).1 = inl obj) ∧
  Forall (λ r : write_record,
            (r.2 = None ∧ r.1.2 = length r.1.1) ∨
            (r.2 = Some ErrClosedPipe ∧ r.1.2 = 0))
         (writes (trace s)).
Proof.
  intros Hcontract Hr Hsync.
  pose proof (task_inv_reachable _ _ _ _ _ Hr) as Hti.
  destruct (task_inv_sync_returned _ _ Hti Hsync) as (Hexit & Hput & _).
  pose proof (upload_inv_reachable _ _ _ _ _ _ Hcontract Hr) as Hu.
  unfold upload_inv in Hu. rewrite Hexit in Hu.
  destruct (Hu Hput) as ((d & Heof) & obj & w' & Hget & Hall).
  destruct (read_err_inv_reachable _ _ _ _ _ Hr d EOF Heof) as [_ Hw].
  destruct (handle_inv_reachable _ _ _ _ _ Hr) as [Hc _].
  destruct (order_inv_reachable _ _ _ _ _ Hr) as [Hok Ho].
  pose proof (write_err_inv_reachable _ _ _ _ _ Hr) as Herr.
  split.
  - exists obj. split;
      [|by intros effs; unfold Open, mbind, M_bind, cl_GetObject; simpl; rewrite Hget].
    rewrite Hall. fold (fed (trace s)).
    destruct (Pipe.wr (pw (blob s))) as [wtr|] eqn:Hwr; [|by destruct Ho as (_ & _ & ?)].
    destruct Ho as (Hcal & _). rewrite Hcal in Hc. destruct Hc as [_ Hc]. congruence.
  - apply Forall_forall. intros r Hin.
    eapply Forall_forall in Hok; [|exact Hin]. eapply Forall_forall in Herr; [|exact Hin].
    destruct Hok as [_ Hnil].
    destruct (r.2) as [e|] eqn:He; [right|left; by auto].
    destruct (Herr e He) as [[-> ?]|(pe & Hpe & _)]; [done|].
    rewrite Hput in Hpe. by apply list_elem_of_singleton in Hpe.
Qed.
End HandleMore.

(** ** Close on an uncommitted handle *)

Section CloseAborts.
Context `{cl : Client}.

(** Once the write end is closed with [e], a step adds no [Read] of the
    upload, or one that returned [e] and no data. *)
Lemma step_reads_after_close t (s s' : sys) e :
  task_inv s → Pipe.werr (pw (blob s)) = Some e → step t s = Some s' →
  reads (trace s') = reads (trace s) ∨
  reads (trace s') = reads (trace s) ++ [([], Some e)].
Proof.
  intros [_ Ht] Hw Hstep.
  destruct t; step_inv Hstep; done_facts; rewrite ?reads_app; simpl;
    rewrite ?app_nil_r; try (by left).
  - right. destruct Ht as (_ & _ & _ & _ & Hre).
    unfold Pipe.readCloseError. by rewrite Hre, Hw.
  - congruence.
Qed.

Lemma exec_reads_after_close (s0 : sys) sched (s s' : sys) e :
  (∀ s1, reachable s0 s1 → task_inv s1) →
  reachable s0 s → Pipe.werr (pw (blob s)) = Some e → exec sched s = Some s' →
  ∃ k, reads (trace s') = reads (trace s) ++ replicate k ([], Some e).
Proof.
  intros Hinv. revert s. induction sched as [|t sched IH]; intros s Hr Hw Hexec;
    simpl in Hexec.
  - simplify_eq. exists 0. simpl. by rewrite app_nil_r.
  - fold (step t s) in Hexec. destruct (step t s) as [s1|] eqn:Hstep; [|done].
    pose proof (reachable_step _ _ _ _ Hr Hstep) as Hr1.
    pose proof (step_werr_kept _ _ _ _ Hstep Hw) as Hw1.
    destruct (IH s1 Hr1 Hw1 Hexec) as [k Hk].
    destruct (step_reads_after_close _ _ _ _ (Hinv s Hr) Hw Hstep) as [Heq|Heq];
      rewrite Hk, Heq.
    + by exists k.
    + exists (S k). by rewrite <- app_assoc.
Qed.

(** A handle closed with the "closed without Sync" error never commits, for
    a client that reports success only after [io.EOF]. *)
Lemma closed_without_sync_no_success (st : Store) key w ops (s : sys) :
  put_eof_before_success →
  reachable (start st key w ops) s →
  Pipe.werr (pw (blob s)) = Some closedWithoutSync →
  put_returns (trace s) ≠ [None] ∧ None ∉ sync_returns (trace s).
Proof.
  intros Heof Hr Hw.
  pose proof (task_inv_reachable _ _ _ _ _ Hr) as Hti.
  assert (put_returns (trace s) ≠ [None]) as Hput.
  { intros Hput. destruct Hti as [_ Ht].
    pose proof (upload_inv_reachable _ _ _ _ _ _ Heof Hr) as Hu. unfold upload_inv in Hu.
    destruct (task s) eqn:Htask; [by destruct Ht as (Hp & _); rewrite Hp in Hput|..].
    all: destruct (Hu Hput) as (d & Hd).
    all: destruct (read_err_inv_reachable _ _ _ _ _ Hr d EOF Hd) as [_ Hw'].
    all: by rewrite Hw in Hw'. }
  split; [done|]. intros Hin.
  by destruct (task_inv_sync_returned _ _ Hti Hin) as (_ & ? & _).
Qed.

(** With the write end closed, the goroutine can move until it has exited. *)
Lemma closed_write_end_task_moves (st : Store) key w ops (s : sys) :
  reachable (start st key w ops) s →
  is_Some (Pipe.werr (pw (blob s))) → task s ≠ TExit → is_Some (step Task s).
Proof.
  intros Hr Hw Hexit. pose proof (task_inv_reachable _ _ _ _ _ Hr) as [Hcap Ht].
  simpl. unfold task_step. destruct (task s) as [c|r|r|]; [| | |done].
  - destruct (put_next c (remote s)); [|done].
    unfold Pipe.read.
    assert (Pipe.done (pw (blob s)) = true) as -> by (apply Pipe_done_true; by left).
    done.
  - done.
  - unfold Chan.send. destruct Ht as (_ & _ & -> & _). by rewrite Hcap.
Qed.

(** C6 (as amended): [Close] on a handle on which [Sync] was not called
    leaves the write end of the pipe closed with the error
    "storage.blob.s3: blob closed without Sync", which is not [io.EOF]: that
    error is what a [Read] of the upload returns from then on, as long as the
    read end was not closed.  So the upload in flight aborts: whatever the
    schedule after the call of [Close], the write end stays closed with that
    error, every [Read] the upload makes from then on fails with it and
    brings no data, the goroutine is never blocked before it exits, and, for
    a client that reports success only after [io.EOF], [PutObject] does not
    report success and no [Sync] returns nil.  After [Sync], [Close] changes
    nothing. *)
Theorem Close_before_Sync_aborts (st : Store) (key : string) (w : World)
    (ops : list op) (s : sys) :
  reachable (start st key w ops) s →
  let b' := (Close (blob s)).2 in
  (didSync (blob s) = false →
     Pipe.werr (pw b') = Some closedWithoutSync ∧
     Error closedWithoutSync = Some "storage.blob.s3: blob closed without Sync" ∧
     closedWithoutSync ≠ EOF ∧
     (Pipe.rerr (pw b') = None →
      ∀ n, Pipe.read n (pw b') = Some (([], Some closedWithoutSync), pw b'))) ∧
  (didSync (blob s) = true → b' = blob s) ∧
  (∀ rest sched s',
     didSync (blob s) = false → caller s = Ready → prog s = OpClose :: rest →
     exec (Caller :: sched) s = Some s' →
     Pipe.werr (pw (blob s')) = Some closedWithoutSync ∧
     (∃ k, reads (trace s')
           = reads (trace s) ++ replicate k ([], Some closedWithoutSync)) ∧
     (task s' ≠ TExit → is_Some (step Task s')) ∧
     (put_eof_before_success →
      put_returns (trace s') ≠ [None] ∧ None ∉ sync_returns (trace s'))).
Proof.
  intros Hr. pose proof (handle_inv_reachable _ _ _ _ _ Hr) as [_ Hd]. simpl.
  assert (didSync (blob s) = false →
          Pipe.store (Pipe.werr (pw (blob s))) closedWithoutSync = Some closedWithoutSync)
    as Hstore.
  { intros Hsync. rewrite Hsync in Hd. by destruct Hd as [[->| ->] _]. }
  split_and!.
  - intros Hsync. rewrite Hsync. simpl. specialize (Hstore Hsync).
    split_and!; try done.
    intros Hre n. unfold Pipe.read, Pipe.done, Pipe.readCloseError. simpl.
    rewrite Hstore, Hre. done.
  - intros Hsync. by rewrite Hsync.
  - intros rest sched s' Hsync Hcal Hprog Hexec.
    assert (exec (Caller :: sched) s = Some s') as Hexec0 by exact Hexec.
    pose proof (reachable_exec _ _ _ _ Hr Hexec0) as Hr'. clear Hexec0.
    simpl in Hexec. unfold caller_step, Close in Hexec.
    rewrite Hcal, Hprog, Hsync in Hexec. simpl in Hexec.
    match type of Hexec with exec sched ?x = _ => set (s1 := x) in * end.
    assert (reachable (start st key w ops) s1) as Hr1.
    { eapply (reachable_step _ _ _ Caller); [exact Hr|].
      unfold step, caller_step, Close. by rewrite Hcal, Hprog, Hsync. }
    assert (Pipe.werr (pw (blob s1)) = Some closedWithoutSync) as Hw1
      by (by apply Hstore).
    pose proof (exec_werr_kept _ _ _ _ Hexec Hw1) as Hw'.
    split_and!.
    + done.
    + destruct (exec_reads_after_close (start st key w ops) sched s1 s' closedWithoutSync)
        as [k Hk]; try done.
      { intros s2. apply task_inv_reachable. }
      exists k. rewrite Hk. subst s1. simpl. by rewrite reads_app, app_nil_r.
    + eapply closed_write_end_task_moves; [done|]. by rewrite Hw'.
    + intros Heof. by eapply closed_without_sync_no_success.
Qed.
End CloseAborts.

Section CloseAbortsRun.
#[local] Existing Instance Mem.client.

Lemma Close_before_Sync_aborts_witness :
  ∃ s, run Mem.empty [OpWrite hello; OpClose] [Caller; Task; Task; Caller] = Some s ∧
       didSync (blob s) = false ∧
       Pipe.werr (pw (Close (blob s)).2) = Some closedWithoutSync ∧
       Pipe.read 4 (pw (Close (blob s)).2)
         = Some (([], Some closedWithoutSync), pw (Close (blob s)).2) ∧
       ∃ s', exec [Caller; Task; Task; Task; Task] s = Some s' ∧
             task s' = TExit ∧
             put_returns (trace s') = [Some closedWithoutSync] ∧
             put_returns (trace s') ≠ [None].
Proof.
  eexists. split; [vm_compute; reflexivity|]. split; [vm_compute; reflexivity|].
  match goal with |- Pipe.werr (pw (Close (blob ?s)).2) = _ ∧ _ =>
    assert (reachable (start (cl := Mem.client) Mem.store "k" Mem.empty
                         [OpWrite hello; OpClose]) s) as Hr
      by (exists [Caller; Task; Task; Caller]; vm_compute; reflexivity)
  end.
  pose proof (Close_before_Sync_aborts _ _ _ _ _ Hr) as H. cbv zeta in H.
  destruct H as (Hbefore & _ & Hafter).
  specialize (Hbefore ltac:(vm_compute; reflexivity)).
  destruct Hbefore as (Hw & _ & _ & Hread).
  split; [exact Hw|]. split; [apply Hread; vm_compute; reflexivity|].
  eexists. split; [vm_compute; reflexivity|].
  split; [vm_compute; reflexivity|]. split; [vm_compute; reflexivity|].
  eapply (Hafter [] [Task; Task; Task; Task]); try (vm_compute; reflexivity).
  apply put_get_contract_eof, Mem_put_get_contract.
Defined.
End CloseAbortsRun.

(** ** Names of objects, and a handle that is dropped *)

Section Names.
Context `{cl : Client}.

Lemma append_inj_r (p k1 k2 : string) : p +:+ k1 = p +:+ k2 → k1 = k2.
Proof. induction p as [|a p IH]; simpl; [done|]. intros H. injection H as H. auto. Qed.

(** X12: [Create], [Open] and [Delete] address the object of a key by the
    same name, the prefix of the store followed by the key, in the bucket
    of the store; two keys have the same object name only if they are
    equal. *)
Theorem same_object_name (s : Store) (key : string) (e : env) :
  let object := objectPrefix s +:+ key in
  (Create s key).2 = TPutObject (PutObject (bucketName s) object) ∧
  effects (Open s key e).2 = effects e ++ [CallGetObject (bucketName s) object] ∧
  removals (effects (Delete s [key] e).2)
    = removals (effects e) ++ [(bucketName s, object)] ∧
  ∀ key', objectPrefix s +:+ key' = object → key' = key.
Proof.
  simpl. split_and!.
  - done.
  - unfold Open, mbind, M_bind, cl_GetObject.
    destruct (GetObject _ _ _) as [[obj|err] w]; simpl; [done|].
    by case_bool_decide.
  - unfold Delete. rewrite Delete_loop_run. simpl.
    rewrite removals_app. f_equal. by destruct (RemoveObject _ _ _).1.
  - intros key'. apply append_inj_r.
Qed.

(** X13: a handle that is dropped, neither committed nor closed, leaves the
    upload blocked for good: when the caller has no call left, the pipe is
    open at both ends and [PutObject] asks for a [Read], neither the caller
    nor the goroutine can move. *)
Theorem dropped_handle_blocks_upload (st : Store) (key : string) (w : World)
    (ops : list op) (s : sys) (c : PutCall) (n : nat) :
  reachable (start st key w ops) s →
  caller s = Ready → prog s = [] →
  Pipe.done (pw (blob s)) = false →
  task s = TPutObject c → put_next c (remote s) = WantRead n →
  (∀ t, step t s = None) ∧
  ∀ sched s', exec sched s = Some s' → s' = s.
Proof.
  intros Hr Hcal Hprog Hdone Htask Hnext.
  destruct (handle_inv_reachable _ _ _ _ _ Hr) as [Hc _]. rewrite Hcal in Hc.
  assert (∀ t, step t s = None) as Hstuck.
  { intros []; simpl.
    - unfold caller_step. by rewrite Hcal, Hprog.
    - unfold task_step, Pipe.read. by rewrite Htask, Hnext, Hdone, Hc. }
  split; [done|]. intros [|t sched] s' Hexec; simpl in Hexec; [by simplify_eq|].
  fold (step t s) in Hexec. by rewrite Hstuck in Hexec.
Qed.
End Names.

Section NamesRuns.
#[local] Existing Instance Mem.client.

Lemma dropped_handle_blocks_upload_witness :
  ∃ s, run Mem.empty [OpWrite hello] [Caller; Task; Task; Caller] = Some s ∧
       write_returns (trace s) = [(5, None)] ∧
       step Caller s = None ∧ step Task s = None.
Proof.
  eexists. split; [vm_compute; reflexivity|]. split; [vm_compute; reflexivity|].
  match goal with |- step Caller ?s = None ∧ _ =>
    destruct (dropped_handle_blocks_upload (cl := Mem.client) Mem.store "k" Mem.empty
                [OpWrite hello] s
                (put_resume (put_resume (PutObject "mail" "blobs/k") (take 4 hello) None)
                   (drop 4 hello) None) 4) as [Hstuck _]
  end; try (vm_compute; reflexivity).
  - exists [Caller; Task; Task; Caller]. vm_compute. reflexivity.
  - split; apply Hstuck.
Defined.
End NamesRuns.

(** ** Construction and initialisation *)

(** The variables the directives of [Init] store into: two fields of the
    store and its four locals, and the field [objectPrefix]. *)
Inductive variable :=
| VEndpoint | VSecure | VAccessKeyID | VSecretAccessKey | VBucketName | VLocation
| VObjectPrefix.

(** A directive registered on the configuration map: [cfg.String(name,
    inheritGlobal, required, defaultVal, store)] or [cfg.Bool(name, inheritGlobal,
    defaultVal, store)]. *)
Inductive directive :=
| DString (name : string) (inheritGlobal required : bool) (defaultVal : string)
    (store : variable)
| DBool (name : string) (inheritGlobal defaultVal : bool) (store : variable).

(** The values of the seven variables. *)
Record settings := mkSettings {
  v_endpoint : string;
  v_secure : bool;
  v_accessKeyID : string;
  v_secretAccessKey : string;
  v_bucketName : string;
  v_location : string;
  v_objectPrefix : string;
}.

(** [minio.Options] as [Init] fills it; the credentials are those of
    [credentials.NewStaticV4(id, secret, token)]. *)
Record Options := mkOptions {
  Creds : string * string * string;
  Secure : bool;
  Region : string;
}.

(** What [Init] takes from outside the package: the configuration map with
    its [Process], which stores into the variables of the registered
    directives and may fail, and [minio.New]. *)
Class Environment := {
  Map : Type;
  Handle : Type;                  (* *minio.Client *)
  Process : Map → list directive → settings → settings * option error;
  minio_New : string → Options → Handle + error;
}.

(** The directives of [Init], in the order it registers them. *)
Definition directives : list directive :=
  [ DString "endpoint" false true "" VEndpoint;
    DBool "secure" false true VSecure;
    DString "access_key" false true "" VAccessKeyID;
    DString "secret_key" false true "" VSecretAccessKey;
    DString "bucket" false true "" VBucketName;
    DString "region" false false "" VLocation;
    DString "object_prefix" false false "" VObjectPrefix ].

Section Init.
Context `{env : Environment}.

(** The variables when [Init] is entered: the fields of the store as they
    are, the locals at their zero values. *)
Definition initial_vars (s : Store) : settings :=
  {| v_endpoint := endpoint s; v_secure := false; v_accessKeyID := "";
     v_secretAccessKey := ""; v_bucketName := bucketName s;
     v_location := ""; v_objectPrefix := objectPrefix s |}.

(** The [minio.Options] literal of [Init]. *)
Definition options_of (vars : settings) : Options :=
  {| Creds := (v_accessKeyID vars, v_secretAccessKey vars, "");
     Secure := v_secure vars; Region := v_location vars |}.

(** [Store.Init]: the store with its field [cl] (nil is [None]), and the
    error returned. *)
Definition Init (s : Store) (cl : option Handle) (cfg : Map)
  : Store * option Handle * option error :=
  let '(vars, err) := Process cfg directives (initial_vars s) in
  let s := {| instName := instName s; endpoint := v_endpoint vars;
              bucketName := v_bucketName vars; objectPrefix := v_objectPrefix vars |} in
  match err with
  | Some err => (s, cl, Some err)
  | None =>
      if bool_decide (endpoint s = "")
      then (s, cl, Some (Errorf (modName +:+ ": endpoint not set")))
      else
        match minio_New (endpoint s) (options_of vars) with
        | inr err => (s, cl, Some (ErrorfW (modName +:+ ": ") err))
        | inl c => (s, Some c, None)
        end
  end.

(** X10: [Init] keeps the instance name and takes endpoint, bucket and prefix
    from the variables [Process] left.  When it returns nil, [Process]
    succeeded, the endpoint is not empty and the client of the store is the
    one [minio.New] built for that endpoint from the configured credentials
    (with an empty token), security flag and region.  When it fails, the
    client of the store is left as it was, and the error is the one of
    [Process], unchanged, or "storage.blob.s3: endpoint not set", or the
    error of [minio.New] wrapped behind the prefix "storage.blob.s3: ". *)
Theorem Init_outcome (s : Store) (cl : option Handle) (cfg : Map) :
  let r := Init s cl cfg in
  let s' := r.1.1 in
  let p := Process cfg directives (initial_vars s) in
  instName s' = instName s ∧
  (endpoint s', bucketName s', objectPrefix s')
    = (v_endpoint p.1, v_bucketName p.1, v_objectPrefix p.1) ∧
  match r.2 with
  | None =>
      p.2 = None ∧ endpoint s' ≠ "" ∧
      ∃ c, r.1.2 = Some c ∧ minio_New (endpoint s') (options_of p.1) = inl c
  | Some e =>
      r.1.2 = cl ∧
      (p.2 = Some e ∨
       (p.2 = None ∧ endpoint s' = "" ∧
        Error e = Some "storage.blob.s3: endpoint not set") ∨
       (p.2 = None ∧ endpoint s' ≠ "" ∧
        ∃ e0, minio_New (endpoint s') (options_of p.1) = inr e0 ∧
              Unwrap e = Some e0 ∧
              Error e = (λ m, "storage.blob.s3: " +:+ m) <$> Error e0))
  end.
Proof.
  simpl. unfold Init.
  destruct (Process cfg directives _) as [vars [err|]] eqn:Hp; simpl.
  - split_and!; try done. by left.
  - case_bool_decide as Hend; simpl.
    + split_and!; try done. right; left. done.
    + destruct (minio_New _ _) as [c|e0] eqn:Hnew; simpl.
      * split_and!; try done. eauto.
      * split_and!; try done. right; right. split_and!; try done. eauto.
Qed.

(** X11: [New] makes a store exactly when it is given no inline argument,
    and that store answers the instance name it was given and the module
    name "storage.blob.s3", also after [Init]; given any inline argument it
    fails with "storage.blob.s3: expected 0 arguments". *)
Theorem New_accepts_no_arguments (name : string) (inlineArgs : list string) :
  match New name inlineArgs with
  | inl s =>
      inlineArgs = [] ∧ InstanceName s = name ∧ Name s = "storage.blob.s3" ∧
      ∀ cl cfg, InstanceName (Init s cl cfg).1.1 = name
  | inr e =>
      inlineArgs ≠ [] ∧ Error e = Some "storage.blob.s3: expected 0 arguments"
  end.
Proof.
  unfold New. destruct inlineArgs as [|a args]; simpl.
  - split_and!; try done. intros cl cfg. unfold Init, InstanceName.
    destruct (Process _ _ _) as [vars [err|]]; simpl; [done|].
    case_bool_decide; simpl; [done|]. by destruct (minio_New _ _).
  - done.
Qed.
End Init.

(** ** Further runs against the in-memory client *)

Section MoreRuns.
#[local] Existing Instance Mem.client.

Lemma Write_on_closed_pipe_fails_at_once_witness :
  ∃ s, run refusing [OpWrite hello] [Task; Task] = Some s ∧
       ∃ s', step Caller s = Some s' ∧
             write_returns (trace s')
               = [(0, Some (ErrorfW "s3 PutObject: " Mem.AccessDenied))].
Proof.
  eexists. split; [vm_compute; reflexivity|].
  match goal with |- ∃ s', step Caller ?s = _ ∧ _ =>
    assert (reachable (start (cl := Mem.client) Mem.store "k" refusing [OpWrite hello]) s)
      as Hr by (exists [Task; Task]; vm_compute; reflexivity);
    destruct (Write_on_closed_pipe_fails_at_once _ _ _ _ s hello [] Hr eq_refl eq_refl)
      as (err & Hstep & Herr); [vm_compute; reflexivity|]
  end.
  cbn [blob pw Pipe.werr] in Herr. destruct Herr as (e & He & ->).
  vm_compute in He. injection He as <-.
  eexists. split; [exact Hstep|]. vm_compute. reflexivity.
Defined.

Lemma Write_results_classified_witness :
  ∃ s, run refusing [OpWrite hello; OpSync; OpWrite world_]
         [Task; Task; Caller; Caller; Task; Caller; Caller] = Some s ∧
       write_returns (trace s)
         = [(0, Some (ErrorfW "s3 PutObject: " Mem.AccessDenied));
            (0, Some ErrClosedPipe)] ∧
       Forall (λ r : write_record,
                 r.1.2 ≤ length r.1.1 ∧
                 match r.2 with
                 | None => r.1.2 = length r.1.1
                 | Some e =>
                     (e = ErrClosedPipe ∧ r.1.2 = 0) ∨
                     (∃ pe, put_returns (trace s) = [Some pe] ∧
                            e = ErrorfW "s3 PutObject: " pe)
                 end)
              (writes (trace s)).
Proof.
  eexists. split; [vm_compute; reflexivity|]. split; [vm_compute; reflexivity|].
  eapply (Write_results_classified (cl := Mem.client) Mem.store "k" refusing
            [OpWrite hello; OpSync; OpWrite world_]).
  exists [Task; Task; Caller; Caller; Task; Caller; Caller]. vm_compute. reflexivity.
Defined.

Lemma upload_read_errors_witness :
  ∃ s, run Mem.empty [OpSync] [Caller; Task] = Some s ∧
       reads (trace s) = [([], Some EOF)] ∧
       Pipe.werr (pw (blob s)) = Some EOF ∧ didSync (blob s) = true.
Proof.
  eexists. split; [vm_compute; reflexivity|]. split; [vm_compute; reflexivity|].
  match goal with |- Pipe.werr (pw (blob ?s)) = _ ∧ _ =>
    destruct (upload_read_errors (cl := Mem.client) Mem.store "k" Mem.empty [OpSync] s
                [] EOF) as (_ & Hw & _ & Hs)
  end.
  - exists [Caller; Task]. vm_compute. reflexivity.
  - vm_compute. apply list_elem_of_here.
  - split; [exact Hw|]. by destruct (Hs eq_refl).
Defined.

Lemma abandoned_handle_never_commits_witness :
  ∃ s', run Mem.empty [OpWrite hello; OpClose; OpSync]
          [Caller; Task; Task; Caller; Caller; Task; Task; Task; Task; Caller; Caller]
          = Some s' ∧
        sync_returns (trace s') = [Some closedWithoutSync] ∧
        put_returns (trace s') ≠ [None] ∧
        None ∉ sync_returns (trace s').
Proof.
  eexists. split; [vm_compute; reflexivity|]. split; [vm_compute; reflexivity|].
  destruct (run Mem.empty [OpWrite hello; OpClose; OpSync] [Caller; Task; Task; Caller])
    as [s|] eqn:Hs; [|vm_compute in Hs; discriminate].
  eapply (abandoned_handle_never_commits (cl := Mem.client) Mem.store "k" Mem.empty
            [OpWrite hello; OpClose; OpSync] s [OpSync]
            [Task; Task; Task; Task; Caller; Caller]).
  - apply put_get_contract_eof, Mem_put_get_contract.
  - by exists [Caller; Task; Task; Caller].
  - vm_compute in Hs. by simplify_eq.
  - vm_compute in Hs. by simplify_eq.
  - vm_compute in Hs. by simplify_eq.
  - vm_compute in Hs. simplify_eq. vm_compute. reflexivity.
Defined.

Lemma closing_unblocks_upload_witness :
  ∃ s, run Mem.empty [OpSync] [Caller] = Some s ∧
       caller s = InSync ∧
       (is_Some (step Caller s) ∨ is_Some (step Task s)) ∧
       is_Some (step Task s).
Proof.
  eexists. split; [vm_compute; reflexivity|]. split; [reflexivity|].
  match goal with |- (_ ∨ is_Some (step Task ?s)) ∧ _ =>
    destruct (closing_unblocks_upload (cl := Mem.client) Mem.store "k" Mem.empty
                [OpSync] s) as [Htask Hsync]
  end.
  - exists [Caller]. vm_compute. reflexivity.
  - split; [by apply Hsync|]. apply Htask; [by eexists|done].
Defined.

Lemma Sync_nil_commits_reported_bytes_witness :
  ∃ s, run Mem.empty [OpWrite hello; OpSync; OpWrite world_]
         [Caller; Task; Task; Caller; Caller; Task; Task; Task; Task; Caller; Caller]
         = Some s ∧
       write_returns (trace s) = [(5, None); (0, Some ErrClosedPipe)] ∧
       ∃ obj, ReadAll obj = hello ∧
              ∀ effs, (Open Mem.store "k" {| world := remote s; effects := effs |}).1
                      = inl obj.
Proof.
  eexists. split; [vm_compute; reflexivity|]. split; [vm_compute; reflexivity|].
  match goal with |- ∃ obj, _ ∧ ∀ effs, (Open _ _ {| world := remote ?s |}).1 = _ =>
    destruct (Sync_nil_commits_reported_bytes (cl := Mem.client) Mem.store "k" Mem.empty
                [OpWrite hello; OpSync; OpWrite world_] s Mem_put_get_contract)
      as [(obj & Hall & Hopen) _]
  end.
  - exists [Caller; Task; Task; Caller; Caller; Task; Task; Task; Task; Caller; Caller].
    vm_compute. reflexivity.
  - vm_compute. apply list_elem_of_here.
  - exists obj. split; [|exact Hopen]. rewrite Hall. vm_compute. reflexivity.
Defined.
End MoreRuns.
